(** * FailWhale: the workflow monitor of [main.js]

    A shallow embedding of the monitoring core of [main.js]: the resolver
    [extractRepoInfo], the status client [fetchWorkflowRuns], the image
    collaborator [getRandomGif], the polling pass [checkWorkflows] and the
    IPC handlers ['add-source'] and ['remove-source'].

    The module-level variables [sources] and [workflowStates] become fields
    of one application state; the outside world (HTTP answers, the clock)
    is an oracle held in the same state, and every observable effect
    (request, timer, popup, console line, file write) is appended to a
    trace. *)

From Stdlib Require Import ZArith Ascii String List Lia DecimalString.
From stdpp Require Import base strings gmap list.

Local Open Scope Z_scope.

#[local] Arguments String.append !_ _ / : simpl nomatch.

(* ===================================================================== *)
(** ** JavaScript strings *)
(* ===================================================================== *)

Module JsString.

(** [s.startsWith(p)], returning what follows the prefix. *)
Fixpoint strip_prefix (p s : string) : option string :=
  match p with
  | EmptyString => Some s
  | String a p' =>
      match s with
      | EmptyString => None
      | String b s' => if Ascii.eqb a b then strip_prefix p' s' else None
      end
  end.

(** [s.includes(needle)]. *)
Fixpoint includes (needle s : string) : bool :=
  match strip_prefix needle s with
  | Some _ => true
  | None =>
      match s with
      | EmptyString => false
      | String _ s' => includes needle s'
      end
  end.

(** Is the character [c] absent from [s]? *)
Fixpoint lacks (c : ascii) (s : string) : bool :=
  match s with
  | EmptyString => true
  | String b s' => negb (Ascii.eqb b c) && lacks c s'
  end.

(** The last character of a string. *)
Fixpoint last_char (s : string) : option ascii :=
  match s with
  | EmptyString => None
  | String c EmptyString => Some c
  | String _ s' => last_char s'
  end.

(** Template-literal rendering of an integer: [`${n}`]. *)
Definition of_Z (n : Z) : string := NilZero.string_of_int (Z.to_int n).

Definition of_nat (n : nat) : string := of_Z (Z.of_nat n).

(** [s === ''] is the only falsy string. *)
Definition truthy (s : string) : bool :=
  match s with EmptyString => false | _ => true end.

End JsString.

(* ===================================================================== *)
(** ** The resolver: [extractRepoInfo] *)
(* ===================================================================== *)

(** Strings are sequences of bytes here and of UTF-16 code units in
    JavaScript.  The pattern below looks only at ASCII characters, and the
    byte of ['/'] is part of no other character in UTF-8, so the runs of
    [[^\/]] hold the same text in both. *)
Record RepoInfo : Type := { owner : string; repo : string }.

Definition slash : ascii := "/"%char.

(** The pieces of the pattern [/github\.com\/([^\/]+)\/([^\/]+)/]: literal
    text (the escapes [\.] and [\/] stand for the characters themselves)
    and the capturing group [([^\/]+)]. *)
Inductive re_item : Type :=
| Lit (text : string)
| Segment.

Definition github_re : list re_item :=
  [Lit "github.com/"; Segment; Lit "/"; Segment].

(** The group [([^\/]+)] in front of the continuation [k]: one or more
    characters other than ['/'], as many as possible, giving characters
    back one at a time while the continuation fails.  The result is the
    captured text with what the continuation captured. *)
Fixpoint greedy (k : string -> option (list string)) (s : string)
  : option (string * list string) :=
  match s with
  | EmptyString => None
  | String c s' =>
      if Ascii.eqb c slash then None
      else
        match greedy k s' with
        | Some (seg, caps) => Some (String c seg, caps)
        | None =>
            match k s' with
            | Some caps => Some (String c EmptyString, caps)
            | None => None
            end
        end
  end.

(** The backtracking match of a pattern at the start of [s]; the result is
    the list of captures. *)
Fixpoint re_match (p : list re_item) (s : string) : option (list string) :=
  match p with
  | [] => Some []
  | Lit text :: p' =>
      match JsString.strip_prefix text s with
      | Some rest => re_match p' rest
      | None => None
      end
  | Segment :: p' =>
      match greedy (re_match p') s with
      | Some (seg, caps) => Some (seg :: caps)
      | None => None
      end
  end.

(** [s.match(re)] for a pattern without the [g] flag: the match at the
    leftmost position where the pattern matches. *)
Fixpoint regex_exec (p : list re_item) (s : string) : option (list string) :=
  match re_match p s with
  | Some caps => Some caps
  | None =>
      match s with
      | EmptyString => None
      | String _ s' => regex_exec p s'
      end
  end.

Definition extractRepoInfo (githubUrl : string) : option RepoInfo :=
  match regex_exec github_re githubUrl with
  | Some [m1; m2] => Some {| owner := m1; repo := m2 |}
  | _ => None
  end.

(* ===================================================================== *)
(** ** Data model *)
(* ===================================================================== *)

(** An entry of the [workflow_runs] array of the GitHub API; only [id],
    [status] and [conclusion] are read.  [conclusion] is [null] while the
    run has not finished. *)
Module Run.
Record t : Type := { id : Z; status : string; conclusion : option string }.
End Run.

(** A value of the [workflowStates] map.  [notifiedStart] is a property
    that is either absent or [true]. *)
Module WorkflowState.
Record t : Type :=
  { latestRunId : Z; status : string; conclusion : option string;
    notifiedStart : bool }.
End WorkflowState.

(** An entry of the [sources] array. *)
Module Source.
Record t : Type := { url : string; added : string }.
End Source.

(** The [downsized_medium] rendition of a Giphy answer. *)
Module Gif.
Record t : Type := { url : string; width : string; height : string }.
End Gif.

(** What [getRandomGif] returns and [createGifWindow] receives. *)
Module GifData.
Record t : Type := { url : string; width : Z; height : Z }.
End GifData.

(** A thrown value.  Everything this program throws or catches is an
    [Error] object: [code] is [undefined] unless the runtime set it. *)
Module JsError.
Record t : Type := { code : option string; name : string; message : string }.

(** [new Error(msg)] *)
Definition Error (msg : string) : t :=
  {| code := None; name := "Error"; message := msg |}.

(** What V8 throws for [data.images] when [data] is [undefined]. *)
Definition no_images : t :=
  {| code := None; name := "TypeError";
     message := "Cannot read properties of undefined (reading 'images')" |}.
End JsError.

(* ===================================================================== *)
(** ** The outside world *)
(* ===================================================================== *)

(** A fetched [Response]: [ok], [status], and what [response.json()]
    gives, a parsed body or the [SyntaxError] it rejects with. *)
Record response (B : Type) : Type :=
  { ok : bool; status : Z; json : JsError.t + B }.
Arguments ok {B} _.
Arguments status {B} _.
Arguments json {B} _.

(** How the promise returned by [fetch] settles. *)
Inductive outcome (B : Type) : Type :=
| Rejected (e : JsError.t)
| Resolved (r : response B).
Arguments Rejected {B} e.
Arguments Resolved {B} r.

(** The three requests [main.js] issues, and their URLs. *)
Inductive request : Type :=
| GetRuns (owner repo : string)
| HeadGitHub
| GetGif (apiKey tag : string).

Definition request_url (r : request) : string :=
  match r with
  | GetRuns o r => "https://api.github.com/repos/" +:+ o +:+ "/" +:+ r +:+ "/actions/runs"
  | HeadGitHub => "https://api.github.com"
  | GetGif k tag => "https://api.giphy.com/v1/gifs/random?api_key=" +:+ k +:+ "&tag=" +:+ tag
  end.

(** The network as an oracle: the answer to a request may depend on how
    many requests were issued before it.  A body of the runs endpoint is
    its [workflow_runs] property ([None] when absent); a body of the image
    endpoint is [None] when it has no [data] object, [Some None] when
    [data.images?.downsized_medium] is [undefined].  [write_file l] is the
    exception [fs.writeFileSync] throws when asked to store [l], if any;
    [date_now] is what [new Date().toISOString()] reads. *)
Record World : Type :=
  { github_runs : nat -> string -> string -> outcome (option (list Run.t));
    github_head : nat -> outcome unit;
    giphy_random : nat -> string -> string -> outcome (option (option Gif.t));
    write_file : list Source.t -> option JsError.t;
    date_now : string }.

Inductive console_level : Type := Log | Warn | Error.

(** Observable effects, in the order they happen. *)
Inductive event : Type :=
| Fetch (r : request)
| Sleep (ms : Z)
| GifWindow (g : GifData.t)
| Console (level : console_level) (args : list string)
| WriteSources (l : list Source.t).

(** The module-level variables of [main.js] and the world they run in. *)
Record App : Type :=
  { sources : list Source.t;
    workflowStates : gmap string WorkflowState.t;
    apiKey : string;
    world : World;
    requests : nat;
    trace : list event }.

(* ===================================================================== *)
(** ** A monad for state and exceptions *)
(* ===================================================================== *)

Definition M (A : Type) : Type := App -> (JsError.t + A) * App.

Definition ret {A} (a : A) : M A := fun st => (inr a, st).

Definition bind {A B} (m : M A) (k : A -> M B) : M B :=
  fun st =>
    match m st with
    | (inl e, st') => (inl e, st')
    | (inr a, st') => k a st'
    end.

Definition throw {A} (e : JsError.t) : M A := fun st => (inl e, st).

(** [try { body } catch (err) { handler }] *)
Definition try_catch {A} (body : M A) (handler : JsError.t -> M A) : M A :=
  fun st =>
    match body st with
    | (inl e, st') => handler e st'
    | (inr a, st') => (inr a, st')
    end.

Definition gets {A} (f : App -> A) : M A := fun st => (inr (f st), st).

Definition modify (f : App -> App) : M unit := fun st => (inr tt, f st).

Notation "'do' x <- m 'in' k" := (bind m (fun x => k))
  (at level 10, x name, m at level 100, k at level 200,
   format "'[v' 'do'  x  <-  m  'in' '/' k ']'").

Definition set_sources (l : list Source.t) (st : App) : App :=
  {| sources := l; workflowStates := workflowStates st; apiKey := apiKey st;
     world := world st; requests := requests st; trace := trace st |}.

Definition set_workflowStates (m : gmap string WorkflowState.t) (st : App) : App :=
  {| sources := sources st; workflowStates := m; apiKey := apiKey st;
     world := world st; requests := requests st; trace := trace st |}.

Definition log_event (ev : event) (st : App) : App :=
  {| sources := sources st; workflowStates := workflowStates st;
     apiKey := apiKey st; world := world st; requests := requests st;
     trace := trace st ++ [ev] |}.

Definition count_request (st : App) : App :=
  {| sources := sources st; workflowStates := workflowStates st;
     apiKey := apiKey st; world := world st; requests := S (requests st);
     trace := trace st |}.

Definition emit (ev : event) : M unit := modify (log_event ev).

Definition console (level : console_level) (args : list string) : M unit :=
  emit (Console level args).

(** [await fetch(...)]: the request is recorded, the oracle answers, and a
    rejected promise is thrown at the [await]. *)
Definition fetch {B} (req : request) (answer : World -> nat -> outcome B)
  : M (response B) :=
  do _ <- emit (Fetch req) in
  do out <- gets (fun st => answer (world st) (requests st)) in
  do _ <- modify count_request in
  match out with
  | Rejected e => throw e
  | Resolved r => ret r
  end.

(** [await response.json()] *)
Definition read_json {B} (r : response B) : M B :=
  match json r with
  | inl e => throw e
  | inr b => ret b
  end.

(* ===================================================================== *)
(** ** The image collaborator: [getRandomGif] and [createGifWindow] *)
(* ===================================================================== *)

Module ParseInt.

(** [parseInt(s, 10)] as far as the sizes of an image go: decimal texts
    of integers below 2^53, where the double [parseInt] returns is the
    integer itself, with leading white space within ASCII.  White space
    outside ASCII and the rounding of longer digit runs are not modelled;
    no statement of this file depends on the value read. *)

(** White space that [parseInt] skips, within ASCII. *)
Definition is_space (c : ascii) : bool :=
  let n := nat_of_ascii c in
  (Nat.leb 9 n && Nat.leb n 13) || Nat.eqb n 32.

Fixpoint skip_spaces (s : string) : string :=
  match s with
  | String c s' => if is_space c then skip_spaces s' else s
  | EmptyString => s
  end.

Definition digit_of (c : ascii) : option Z :=
  let n := nat_of_ascii c in
  if Nat.leb 48 n && Nat.leb n 57 then Some (Z.of_nat (n - 48)) else None.

(** The longest run of decimal digits; [None] is [NaN]. *)
Fixpoint digits (seen : bool) (acc : Z) (s : string) : option Z :=
  match s with
  | EmptyString => if seen then Some acc else None
  | String c s' =>
      match digit_of c with
      | Some d => digits true (acc * 10 + d) s'
      | None => if seen then Some acc else None
      end
  end.

(** [parseInt(s, 10)] *)
Definition parseInt10 (s : string) : option Z :=
  match skip_spaces s with
  | String "-" s' => option_map Z.opp (digits false 0 s')
  | String "+" s' => digits false 0 s'
  | s' => digits false 0 s'
  end.

(** [v || d] for a number [v]: [NaN] and [0] are falsy. *)
Definition or_default (v : option Z) (d : Z) : Z :=
  match v with
  | Some n => if n =? 0 then d else n
  | None => d
  end.

End ParseInt.

Definition getRandomGif (tag : string) : M GifData.t :=
  do found <-
    try_catch
      (do key <- gets apiKey in
       do res <- fetch (GetGif key tag) (fun w n => giphy_random w n key tag) in
       do _ <- (if negb (ok res)
                then throw (JsError.Error ("HTTP error " +:+ JsString.of_Z (status res)))
                else ret tt) in
       do json <- read_json res in
       do data <- (match json with
                   | None => throw JsError.no_images
                   | Some data => ret data
                   end) in
       match data with
       | Some gif =>
           ret (Some {| GifData.url := Gif.url gif;
                        GifData.width :=
                          ParseInt.or_default (ParseInt.parseInt10 (Gif.width gif)) 400;
                        GifData.height :=
                          ParseInt.or_default (ParseInt.parseInt10 (Gif.height gif)) 300 |})
       | None => ret None
       end)
      (fun err =>
         do _ <- console Error ["Error fetching gif:"; JsError.message err] in
         ret None) in
  match found with
  | Some gifData => ret gifData
  | None => ret {| GifData.url := ""; GifData.width := 400; GifData.height := 300 |}
  end.

(** The popup window; its geometry and animation are left to the event. *)
Definition createGifWindow (gifData : GifData.t) : M unit :=
  emit (GifWindow gifData).

(* ===================================================================== *)
(** ** The status client: [fetchWorkflowRuns] *)
(* ===================================================================== *)

Definition isNetworkError (err : JsError.t) : bool :=
  match JsError.code err with Some c => String.eqb c "ENOTFOUND" | None => false end
  || String.eqb (JsError.name err) "AbortError"
  || JsString.includes "fetch failed" (JsError.message err).

(** [Math.min(1000 * Math.pow(2, attempt - 1), 30000)].  The doubles are
    exact integers up to attempt 1014 and [Infinity] from attempt 1025 on,
    where the minimum is 30000 as it is here. *)
Definition backoff_delay (attempt : nat) : Z :=
  Z.min (1000 * 2 ^ (Z.of_nat attempt - 1)) 30000.

(** The [try] block of one attempt.  The ten-second timer that aborts the
    request belongs to the world: an aborted request is a [Rejected]
    answer whose error has the name [AbortError]. *)
Definition fetch_attempt (owner repo : string) : M (list Run.t) :=
  do response <- fetch (GetRuns owner repo) (fun w n => github_runs w n owner repo) in
  do _ <- (if negb (ok response) then
             if status response =? 403 then
               do _ <- console Warn
                         ["GitHub API rate limited for " +:+ owner +:+ "/" +:+ repo
                          +:+ ". Waiting before retry..."] in
               throw (JsError.Error ("GitHub API rate limited: "
                                     +:+ JsString.of_Z (status response)))
             else
               throw (JsError.Error ("GitHub API error: "
                                     +:+ JsString.of_Z (status response)))
           else ret tt) in
  do data <- read_json response in
  match data with
  | Some workflow_runs => ret workflow_runs
  | None => ret []
  end.

(** The [catch] block: [Some v] is [return v], [None] falls out of the
    block into the next iteration. *)
Definition fetch_recover (owner repo : string) (retries attempt : nat)
    (err : JsError.t) : M (option (list Run.t)) :=
  if Nat.eqb attempt retries then
    do _ <- console Error
              ["Failed to fetch workflows for " +:+ owner +:+ "/" +:+ repo +:+ " after "
               +:+ JsString.of_nat retries +:+ " attempts:"; JsError.message err] in
    ret (Some [])
  else if isNetworkError err then
    let delay := backoff_delay attempt in
    do _ <- console Warn
              ["Network error for " +:+ owner +:+ "/" +:+ repo +:+ " (attempt "
               +:+ JsString.of_nat attempt +:+ "/" +:+ JsString.of_nat retries
               +:+ "). Retrying in " +:+ JsString.of_Z delay +:+ "ms..."] in
    do _ <- emit (Sleep delay) in
    ret None
  else
    do _ <- console Error
              ["Non-network error for " +:+ owner +:+ "/" +:+ repo +:+ ":";
               JsError.message err] in
    ret (Some []).

(** [for (let attempt = 1; attempt <= retries; attempt++)], by recursion on
    the number of iterations that remain. *)
Fixpoint fetch_loop (owner repo : string) (retries remaining attempt : nat)
  : M (list Run.t) :=
  match remaining with
  | O => ret []
  | S remaining' =>
      do result <- try_catch
                     (do runs <- fetch_attempt owner repo in ret (Some runs))
                     (fetch_recover owner repo retries attempt) in
      match result with
      | Some runs => ret runs
      | None => fetch_loop owner repo retries remaining' (S attempt)
      end
  end.

Definition fetchWorkflowRuns (owner repo : string) (retries : nat) : M (list Run.t) :=
  fetch_loop owner repo retries retries 1.

(* ===================================================================== *)
(** ** The polling pass: [isNetworkAvailable] and [checkWorkflows] *)
(* ===================================================================== *)

Definition isNetworkAvailable : M bool :=
  try_catch
    (do response <- fetch HeadGitHub github_head in
     ret (status response <? 500))
    (fun _ => ret false).

Definition states_set (key : string) (v : WorkflowState.t) : M unit :=
  modify (fun st => set_workflowStates (<[key := v]> (workflowStates st)) st).

Definition states_delete (key : string) : M unit :=
  modify (fun st => set_workflowStates (delete key (workflowStates st)) st).

(** Lines 270-314: what one pass does with the latest run of a repo. *)
Definition track (sourceKey : string) (latestRun : Run.t) : M unit :=
  do previousState <- gets (fun st => workflowStates st !! sourceKey) in
  match previousState with
  | None =>
      states_set sourceKey
        {| WorkflowState.latestRunId := Run.id latestRun;
           WorkflowState.status := Run.status latestRun;
           WorkflowState.conclusion := Run.conclusion latestRun;
           WorkflowState.notifiedStart := false |}
  | Some previousState =>
      if negb (Run.id latestRun =? WorkflowState.latestRunId previousState) then
        if negb (String.eqb (Run.status latestRun) "completed") then
          do gifData <- getRandomGif "lets get started" in
          do _ <- (if JsString.truthy (GifData.url gifData)
                   then createGifWindow gifData else ret tt) in
          states_set sourceKey
            {| WorkflowState.latestRunId := Run.id latestRun;
               WorkflowState.status := Run.status latestRun;
               WorkflowState.conclusion := Run.conclusion latestRun;
               WorkflowState.notifiedStart := true |}
        else ret tt
      else if negb (String.eqb (WorkflowState.status previousState) "completed")
              && String.eqb (Run.status latestRun) "completed" then
        let tag := match Run.conclusion latestRun with
                   | Some c => if String.eqb c "success" then "success" else "failure"
                   | None => "failure"
                   end in
        do gifData <- getRandomGif tag in
        do _ <- (if JsString.truthy (GifData.url gifData)
                 then createGifWindow gifData else ret tt) in
        states_set sourceKey
          {| WorkflowState.latestRunId := Run.id latestRun;
             WorkflowState.status := Run.status latestRun;
             WorkflowState.conclusion := Run.conclusion latestRun;
             WorkflowState.notifiedStart := false |}
      else ret tt
  end.

Definition sourceKey_of (repoInfo : RepoInfo) : string :=
  owner repoInfo +:+ "/" +:+ repo repoInfo.

(** The body of the [for (const source of sources)] loop. *)
Definition check_source (source : Source.t) : M unit :=
  match extractRepoInfo (Source.url source) with
  | None => ret tt
  | Some repoInfo =>
      do runs <- fetchWorkflowRuns (owner repoInfo) (repo repoInfo) 3 in
      match runs with
      | [] => ret tt
      | latestRun :: _ => track (sourceKey_of repoInfo) latestRun
      end
  end.

Fixpoint for_each {A} (l : list A) (body : A -> M unit) : M unit :=
  match l with
  | [] => ret tt
  | x :: l' => do _ <- body x in for_each l' body
  end.

Definition checkWorkflows : M unit :=
  do available <- isNetworkAvailable in
  if negb available then
    console Log ["Network unavailable, skipping workflow check"]
  else
    do srcs <- gets sources in
    for_each srcs check_source.

(* ===================================================================== *)
(** ** The source store: [saveSources] and the IPC handlers *)
(* ===================================================================== *)

Definition saveSources : M unit :=
  try_catch
    (do l <- gets sources in
     do _ <- emit (WriteSources l) in
     do failure <- gets (fun st => write_file (world st) l) in
     match failure with
     | Some err => throw err
     | None => console Log ["Sources saved"]
     end)
    (fun err => console Error ["Error saving sources:"; JsError.message err]).

(** [ipcMain.handle('add-source', (event, url) => ...)] *)
Definition add_source (url : string) : M bool :=
  let repoInfo := extractRepoInfo url in
  match repoInfo with
  | None => throw (JsError.Error "Invalid GitHub URL")
  | Some _ =>
      do exists_ <- gets (fun st => existsb (fun source => String.eqb (Source.url source) url)
                                            (sources st)) in
      if (exists_ : bool) then throw (JsError.Error "Source already exists")
      else
        do now <- gets (fun st => date_now (world st)) in
        do _ <- modify (fun st =>
                  set_sources (sources st ++ [{| Source.url := url; Source.added := now |}]) st) in
        do _ <- saveSources in
        ret true
  end.

(** [ipcMain.handle('remove-source', (event, index) => ...)]; the renderer
    sends the integer position of the row. *)
Definition remove_source (index : Z) : M bool :=
  do srcs <- gets sources in
  do _ <- (if (0 <=? index) && (index <? Z.of_nat (length srcs)) then
             match srcs !! Z.to_nat index with
             | None => ret tt
             | Some removed =>
                 do _ <- modify (set_sources (delete (Z.to_nat index) srcs)) in
                 do _ <- saveSources in
                 match extractRepoInfo (Source.url removed) with
                 | Some repoInfo => states_delete (sourceKey_of repoInfo)
                 | None => ret tt
                 end
             end
           else ret tt) in
  ret true.

(* ===================================================================== *)
(** ** Start-up, the remaining handler and the event loop *)
(* ===================================================================== *)

(** What reading [sources.json] gives: no such file ([fs.existsSync] is
    false), an exception of [fs.readFileSync], or a text with what
    [JSON.parse] makes of it, an exception or the stored array. *)
Inductive file_read : Type :=
| NoFile
| ReadError (e : JsError.t)
| FileText (parsed : JsError.t + list Source.t).

(** [loadSources]; [inspect] is how the console renders the array. *)
Definition loadSources (inspect : list Source.t -> string) (file : file_read)
  : M unit :=
  try_catch
    (match file with
     | NoFile => ret tt
     | ReadError e => throw e
     | FileText parsed =>
         do data <- (match parsed with
                     | inl e => throw e
                     | inr data => ret data
                     end) in
         do _ <- modify (set_sources data) in
         do loaded <- gets sources in
         console Log ["Loaded sources:"; inspect loaded]
     end)
    (fun err =>
       do _ <- console Error ["Error loading sources:"; JsError.message err] in
       modify (set_sources [])).

(** [ipcMain.handle('get-sources', () => sources)] *)
Definition get_sources : M (list Source.t) := gets sources.

(** The fallback tray icon, lines 125-133: the loop
    [for (let i = 0; i < buffer.length; i += 4)] over the bytes of the
    buffer.  A write past the end of a [Buffer] is ignored, as a list
    insert is.  [fuel] bounds the number of iterations. *)
Fixpoint fill_pixels (fuel i : nat) (buffer : list Z) : list Z :=
  match fuel with
  | O => buffer
  | S fuel' =>
      if (i <? length buffer)%nat then
        fill_pixels fuel' (i + 4)
          (<[(i + 3)%nat := 255]>
             (<[(i + 2)%nat := 255]>
                (<[(i + 1)%nat := 122]>
                   (<[i := 0]> buffer))))
      else buffer
  end.

(** [Buffer.alloc(width * height * 4)], zero-filled, then the loop. *)
Definition fallback_pixels (width height : nat) : list Z :=
  let buffer := replicate (width * height * 4) 0 in
  fill_pixels (length buffer) 0 buffer.

(** What drives the program once it is ready: the interval timer, which
    runs [checkWorkflows], and the calls of the renderer.  Each is taken
    here as running to its end before the next one starts. *)
Inductive action : Type :=
| Tick
| GetSources
| AddSource (url : string)
| RemoveSource (index : Z).

Definition handle (a : action) (st : App) : App :=
  match a with
  | Tick => snd (checkWorkflows st)
  | GetSources => snd (get_sources st)
  | AddSource url => snd (add_source url st)
  | RemoveSource index => snd (remove_source index st)
  end.

Definition session (actions : list action) (st : App) : App :=
  fold_left (fun st a => handle a st) actions st.

(** The tracker over passes that do not overlap: the latest runs of one
    repo as one pass after another sees them, each call of the tracker run
    to its end before the next one starts.  The timer of lines 152-154
    does not wait for a pass; passes that overlap are outside this
    definition. *)
Definition observe (sourceKey : string) (runs : list Run.t) (st : App) : App :=
  fold_left (fun st latestRun => snd (track sourceKey latestRun st)) runs st.

(** The checks of the renderer's [addSource] on the trimmed text of the
    input field, before it invokes ['add-source']: [if (!url) return] and
    [if (!url.includes('github.com'))]. *)
Definition renderer_accepts (url : string) : bool :=
  JsString.truthy url && JsString.includes "github.com" url.

(* ===================================================================== *)
(** ** Vocabulary of the statements *)
(* ===================================================================== *)

(** The longest run of characters other than ['/'] at the start of a
    string, and what follows it. *)
Fixpoint take_segment (s : string) : string * string :=
  match s with
  | EmptyString => (EmptyString, EmptyString)
  | String c s' =>
      if Ascii.eqb c slash then (EmptyString, s)
      else let '(seg, rest) := take_segment s' in (String c seg, rest)
  end.

(** The pattern read without backtracking: the host text, the longest
    run up to a ['/'], that ['/'], and the longest run after it.
    [re_match_github] below shows that the backtracking match finds
    exactly this. *)
Definition match_here (s : string) : option RepoInfo :=
  match JsString.strip_prefix "github.com/" s with
  | None => None
  | Some after_host =>
      match take_segment after_host with
      | (EmptyString, _) => None
      | (o, String c after_owner) =>
          if Ascii.eqb c slash then
            match take_segment after_owner with
            | (EmptyString, _) => None
            | (r, _) => Some {| owner := o; repo := r |}
            end
          else None
      | (_, EmptyString) => None
      end
  end.

(** The leftmost position where [match_here] succeeds. *)
Fixpoint regex_search (s : string) : option RepoInfo :=
  match match_here s with
  | Some info => Some info
  | None =>
      match s with
      | EmptyString => None
      | String _ s' => regex_search s'
      end
  end.

(** Where a path segment may stop: at the end or before a ['/']. *)
Definition segment_stop (rest : string) : bool :=
  match rest with
  | EmptyString => true
  | String c _ => Ascii.eqb c slash
  end.

(** A non-empty path segment. *)
Definition segment (s : string) : bool := JsString.truthy s && JsString.lacks slash s.


(** What happened between two states of one execution. *)
Definition events_since (before after : App) : list event :=
  drop (length (trace before)) (trace after).

(** The tags the notification trigger was invoked with: the image
    requests, which is what [getRandomGif(tag)] starts with. *)
Definition notifications (evs : list event) : list string :=
  flat_map (fun ev => match ev with Fetch (GetGif _ tag) => [tag] | _ => [] end) evs.

(** The popups shown. *)
Definition popups (evs : list event) : list GifData.t :=
  flat_map (fun ev => match ev with GifWindow g => [g] | _ => [] end) evs.

(** The delays waited. *)
Definition sleeps (evs : list event) : list Z :=
  flat_map (fun ev => match ev with Sleep ms => [ms] | _ => [] end) evs.

(** The attempts made on the runs endpoint. *)
Definition attempts (evs : list event) : list (string * string) :=
  flat_map (fun ev => match ev with Fetch (GetRuns o r) => [(o, r)] | _ => [] end) evs.

Definition is_console (ev : event) : bool :=
  match ev with Console _ _ => true | _ => false end.

(** The image an answer of the image endpoint carries, if any. *)
Definition image_of (answer : outcome (option (option Gif.t))) : option Gif.t :=
  match answer with
  | Resolved {| ok := true; json := inr (Some (Some gif)) |} => Some gif
  | _ => None
  end.

(** The URL of that image; empty when there is none. *)
Definition image_url (answer : outcome (option (option Gif.t))) : string :=
  match image_of answer with
  | Some gif => Gif.url gif
  | None => ""
  end.

(** The tag the tracker asks an image for when a run starts. *)
Definition started_tag : string := "lets get started".

(** A step that changes neither the program's variables nor the world,
    and neither asks for an image nor shows a popup. *)
Definition silent_step (st st' : App) : Prop :=
  sources st' = sources st /\ workflowStates st' = workflowStates st
  /\ apiKey st' = apiKey st /\ world st' = world st
  /\ exists evs, trace st' = trace st ++ evs
                 /\ notifications evs = [] /\ popups evs = [].

(** The record stored for [sourceKey] is that of the run [R]. *)
Definition tracks (st : App) (sourceKey : string) (R : Run.t) : Prop :=
  exists record,
    workflowStates st !! sourceKey = Some record
    /\ WorkflowState.latestRunId record = Run.id R
    /\ WorkflowState.status record = Run.status R
    /\ WorkflowState.conclusion record = Run.conclusion R.

(** A run other than the tracked one is seen before it has completed. *)
Definition run_started (P : WorkflowState.t) (R : Run.t) : Prop :=
  Run.id R <> WorkflowState.latestRunId P /\ Run.status R <> "completed".

(** The tracked run, not completed when last seen, is seen completed. *)
Definition run_finished (P : WorkflowState.t) (R : Run.t) : Prop :=
  Run.id R = WorkflowState.latestRunId P
  /\ WorkflowState.status P <> "completed" /\ Run.status R = "completed".

(** The tag of a finished run. *)
Definition finished_tag (R : Run.t) : string :=
  if decide (Run.conclusion R = Some "success") then "success" else "failure".

(** Every repo with a record is the repo of a stored source. *)
Definition tracked_have_sources (st : App) : Prop :=
  forall sourceKey,
    is_Some (workflowStates st !! sourceKey) ->
    exists source repoInfo,
      In source (sources st)
      /\ extractRepoInfo (Source.url source) = Some repoInfo
      /\ sourceKey_of repoInfo = sourceKey.

(** The lists handed to [fs.writeFileSync]. *)
Definition writes (evs : list event) : list (list Source.t) :=
  flat_map (fun ev => match ev with WriteSources l => [l] | _ => [] end) evs.

(** The sum of a list of delays. *)
Definition total (l : list Z) : Z := fold_right Z.add 0 l.


(** Every stored url resolves and no url is stored twice. *)
Definition store_valid (st : App) : Prop :=
  List.NoDup (map Source.url (sources st))
  /\ Forall (fun source => extractRepoInfo (Source.url source) <> None) (sources st).

(** The bytes of an opaque blue pixel, by position in the buffer. *)
Definition blue_byte (j : nat) : Z :=
  match (j mod 4)%nat with
  | 0%nat => 0
  | 1%nat => 122
  | _ => 255
  end.

(** How many notifications the run with id [x] can still cause, by the
    record of its repo: none once it is recorded as completed, one while
    it is recorded as running or the repo is unseen, two while another
    run is recorded. *)
Definition pending (x : Z) (record : option WorkflowState.t) : nat :=
  match record with
  | None => 1
  | Some P =>
      if decide (WorkflowState.latestRunId P = x) then
        if decide (WorkflowState.status P = "completed") then 0 else 1
      else 2
  end.

(** The effects of the status client: requests for runs, waits and
    console lines. *)
Definition is_client_event (ev : event) : bool :=
  match ev with
  | Fetch (GetRuns _ _) | Sleep _ | Console _ _ => true
  | _ => false
  end.



(* ===================================================================== *)
(** ** Scenarios *)
(* ===================================================================== *)

(** What [fetch] rejects with when the network is down. *)
Definition fetch_failed : JsError.t :=
  {| JsError.code := None; JsError.name := "TypeError";
     JsError.message := "fetch failed" |}.

(** An answer with the given status and parsed body. *)
Definition http {B} (code : Z) (body : B) : outcome B :=
  Resolved {| ok := (200 <=? code) && (code <=? 299); status := code;
              json := inr body |}.

(** A world where the runs endpoint and the image endpoint answer as
    given and everything else works. *)
Definition scripted (runs : nat -> outcome (option (list Run.t)))
    (gif : outcome (option (option Gif.t))) : World :=
  {| github_runs := fun n _ _ => runs n;
     github_head := fun _ => http 200 tt;
     giphy_random := fun _ _ _ => gif;
     write_file := fun _ => None;
     date_now := "2024-01-01T00:00:00.000Z" |}.

(** The program right after start, nothing loaded. *)
Definition started (w : World) : App :=
  {| sources := []; workflowStates := ∅; apiKey := "KEY"; world := w;
     requests := 0; trace := [] |}.

Definition whale_gif : Gif.t :=
  {| Gif.url := "https://media.giphy.com/whale.gif"; Gif.width := "480";
     Gif.height := "270" |}.

(* ===================================================================== *)
(** * Properties *)
(* ===================================================================== *)

(** ** Strings and the resolver *)

Example extract_plain :
  extractRepoInfo "https://github.com/tnylea/failwhale"
  = Some {| owner := "tnylea"; repo := "failwhale" |}.
Proof. reflexivity. Qed.

Example extract_no_scheme :
  extractRepoInfo "github.com/microsoft/vscode"
  = Some {| owner := "microsoft"; repo := "vscode" |}.
Proof. reflexivity. Qed.

Example extract_deep_path :
  extractRepoInfo "https://github.com/facebook/react/tree/main"
  = Some {| owner := "facebook"; repo := "react" |}.
Proof. reflexivity. Qed.

Example extract_rejects :
  map extractRepoInfo
    ["https://gitlab.com/user/repo"; "not-a-url"; ""; "https://github.com/";
     "https://github.com/user"; "https://github.com/user/"]
  = [None; None; None; None; None; None].
Proof. reflexivity. Qed.

Section Resolver.

Import JsString.

Lemma strip_prefix_append p s : strip_prefix p (p +:+ s) = Some s.
Proof.
  induction p as [|a p IH]; simpl; [reflexivity|].
  now rewrite Ascii.eqb_refl.
Qed.

Lemma strip_prefix_inv p : forall s t, strip_prefix p s = Some t -> s = p +:+ t.
Proof.
  induction p as [|a p IH]; simpl; intros s t H.
  - now injection H as ->.
  - destruct s as [|b s]; [discriminate|].
    destruct (Ascii.eqb_spec a b) as [->|]; [|discriminate].
    cbn [String.append]. f_equal. now apply IH.
Qed.


(** A needle whose first character is missing from [s] is not in [s]. *)
Lemma includes_lacks c needle s :
  lacks c s = true -> includes (String c needle) s = false.
Proof.
  induction s as [|b s IH]; simpl; [reflexivity|].
  intros [Hb Hs]%andb_prop. rewrite Ascii.eqb_sym.
  destruct (Ascii.eqb b c); [discriminate|]. now apply IH.
Qed.

Lemma lacks_append c s t :
  lacks c (s +:+ t) = lacks c s && lacks c t.
Proof.
  induction s as [|b s IH]; simpl; [reflexivity|].
  now rewrite IH, andb_assoc.
Qed.

Lemma last_char_snoc s c : last_char (s +:+ String c "") = Some c.
Proof.
  induction s as [|b s IH]; simpl; [reflexivity|].
  rewrite IH. now destruct s.
Qed.

Lemma take_segment_append seg rest :
  lacks slash seg = true -> segment_stop rest = true ->
  take_segment (seg +:+ rest) = (seg, rest).
Proof.
  intros Hseg Hrest. induction seg as [|c seg IH]; simpl in *.
  - destruct rest as [|c rest]; simpl in *; [reflexivity|now rewrite Hrest].
  - apply andb_prop in Hseg as [Hc Hseg].
    destruct (Ascii.eqb c slash); [discriminate|]. now rewrite IH.
Qed.

Lemma match_here_repo o r rest :
  segment o = true -> segment r = true -> segment_stop rest = true ->
  match_here ("github.com/" +:+ o +:+ "/" +:+ r +:+ rest)
  = Some {| owner := o; repo := r |}.
Proof.
  intros [Ho1 Ho2]%andb_prop [Hr1 Hr2]%andb_prop Hrest.
  unfold match_here. rewrite strip_prefix_append.
  rewrite (take_segment_append o) by (auto; reflexivity).
  destruct o as [|co o]; [discriminate|]. cbn [String.append].
  rewrite Ascii.eqb_refl, (take_segment_append r) by auto.
  now destruct r.
Qed.





Lemma append_empty s : s +:+ "" = s.
Proof.
  induction s as [|a s IH]; simpl; [reflexivity|].
  f_equal. exact IH.
Qed.

Lemma append_scheme_colon scheme t :
  scheme +:+ "://" +:+ t = (scheme +:+ ":") +:+ "//" +:+ t.
Proof.
  induction scheme as [|a scheme IH]; simpl; [reflexivity|].
  f_equal. exact IH.
Qed.

(** The pattern does not match inside [scheme://]. *)
Lemma match_here_in_scheme scheme t :
  lacks slash scheme = true ->
  match_here (scheme +:+ "://" +:+ t) = None.
Proof.
  intros Hs. unfold match_here.
  destruct (strip_prefix "github.com/" (scheme +:+ "://" +:+ t)) as [v|] eqn:E;
    [|reflexivity].
  exfalso. apply strip_prefix_inv in E.
  assert (Hseg : take_segment ((scheme +:+ ":") +:+ "//" +:+ t)
                 = (scheme +:+ ":", "//" +:+ t)).
  { apply take_segment_append; [|reflexivity].
    rewrite lacks_append, Hs. reflexivity. }
  rewrite <- append_scheme_colon in Hseg.
  rewrite E in Hseg.
  change ("github.com/" +:+ v) with ("github.com" +:+ String slash v) in Hseg.
  rewrite take_segment_append in Hseg
    by (try reflexivity; simpl; apply Ascii.eqb_refl).
  injection Hseg as Hhost _.
  apply (f_equal last_char) in Hhost.
  rewrite last_char_snoc in Hhost. discriminate.
Qed.

Lemma regex_search_skips_scheme scheme t :
  lacks slash scheme = true ->
  regex_search (scheme +:+ "://" +:+ t) = regex_search t.
Proof.
  intros Hs. induction scheme as [|c scheme IH].
  - reflexivity.
  - change (String c scheme +:+ "://" +:+ t)
      with (String c (scheme +:+ "://" +:+ t)).
    cbn [regex_search].
    change (String c (scheme +:+ "://" +:+ t))
      with (String c scheme +:+ "://" +:+ t).
    rewrite match_here_in_scheme by assumption.
    apply IH. simpl in Hs. now apply andb_prop in Hs.
Qed.



Lemma regex_search_repo o r rest :
  segment o = true -> segment r = true -> segment_stop rest = true ->
  regex_search ("github.com/" +:+ o +:+ "/" +:+ r +:+ rest)
  = Some {| owner := o; repo := r |}.
Proof.
  intros Ho Hr Hrest.
  change (regex_search ("github.com/" +:+ o +:+ "/" +:+ r +:+ rest))
    with (match match_here ("github.com/" +:+ o +:+ "/" +:+ r +:+ rest) with
          | Some info => Some info
          | None => regex_search ("ithub.com/" +:+ o +:+ "/" +:+ r +:+ rest)
          end).
  now rewrite match_here_repo.
Qed.


(** *** The backtracking match and its deterministic reading *)

Lemma take_segment_empty s rest : take_segment s = (EmptyString, rest) -> rest = s.
Proof.
  destruct s as [|c s]; simpl; [congruence|].
  destruct (Ascii.eqb c slash); [congruence|].
  destruct (take_segment s). discriminate.
Qed.

Lemma take_segment_head s c seg rest :
  take_segment s = (String c seg, rest) ->
  exists s', s = String c s' /\ Ascii.eqb c slash = false.
Proof.
  destruct s as [|b s]; simpl; [discriminate|].
  destruct (Ascii.eqb b slash) eqn:Hb; [discriminate|].
  destruct (take_segment s). intros [= -> _ _]. eauto.
Qed.

(** In front of a continuation that needs a ['/'] next, giving characters
    back is of no use: the group takes the longest run or fails. *)
Lemma greedy_before_slash k s :
  (forall c t, Ascii.eqb c slash = false -> k (String c t) = None) ->
  greedy k s
  = match take_segment s with
    | (EmptyString, _) => None
    | (seg, rest) =>
        match k rest with Some caps => Some (seg, caps) | None => None end
    end.
Proof.
  intros Hk. induction s as [|c s IH]; simpl; [reflexivity|].
  destruct (Ascii.eqb c slash) eqn:Hc; [reflexivity|].
  rewrite IH. destruct (take_segment s) as [seg rest] eqn:Hseg.
  destruct seg as [|b seg].
  - now rewrite (take_segment_empty _ _ Hseg).
  - destruct (k rest) as [caps|]; [reflexivity|].
    destruct (take_segment_head _ _ _ _ Hseg) as (s' & -> & Hb).
    now rewrite Hk.
Qed.

(** In front of a continuation that always succeeds, the group takes the
    longest run at once. *)
Lemma greedy_last k caps s :
  (forall t, k t = Some caps) ->
  greedy k s
  = match take_segment s with
    | (EmptyString, _) => None
    | (seg, _) => Some (seg, caps)
    end.
Proof.
  intros Hk. induction s as [|c s IH]; simpl; [reflexivity|].
  destruct (Ascii.eqb c slash) eqn:Hc; [reflexivity|].
  rewrite IH. destruct (take_segment s) as [seg rest] eqn:Hseg.
  destruct seg as [|b seg]; [now rewrite Hk | reflexivity].
Qed.

Lemma re_match_github s :
  re_match github_re s
  = match match_here s with
    | Some info => Some [owner info; repo info]
    | None => None
    end.
Proof.
  unfold github_re, match_here. cbn [re_match].
  destruct (strip_prefix "github.com/" s) as [after_host|]; [|reflexivity].
  rewrite greedy_before_slash.
  - destruct (take_segment after_host) as [o rest].
    destruct o as [|co o]; [reflexivity|].
    destruct rest as [|c after_owner]; [reflexivity|].
    cbn [strip_prefix]. rewrite Ascii.eqb_sym. fold slash.
    destruct (Ascii.eqb c slash); [|reflexivity].
    rewrite (greedy_last _ []) by reflexivity.
    destruct (take_segment after_owner) as [r rest].
    now destruct r.
  - intros c t Hc. cbn [strip_prefix]. rewrite Ascii.eqb_sym. fold slash.
    now rewrite Hc.
Qed.

Lemma extractRepoInfo_search s : extractRepoInfo s = regex_search s.
Proof.
  unfold extractRepoInfo. induction s as [|c s IH].
  - reflexivity.
  - cbn [regex_exec regex_search]. rewrite re_match_github.
    destruct (match_here (String c s)) as [[o r]|]; [reflexivity|exact IH].
Qed.

End Resolver.




(* ===================================================================== *)
(** ** The monad and the trace *)
(* ===================================================================== *)

Example runs_url :
  request_url (GetRuns "tnylea" "failwhale")
  = "https://api.github.com/repos/tnylea/failwhale/actions/runs".
Proof. reflexivity. Qed.

Ltac run_step :=
  unfold bind, ret, throw, try_catch, gets, modify, emit, console,
    createGifWindow, states_set, states_delete, read_json; simpl.

(** Closes [exists evs, trace st' = trace st ++ ev :: evs /\ console only]
    once [st'] is known. *)
Ltac trace_tail :=
  simpl; rewrite <- ?app_assoc; simpl;
  solve [ exists []; split; reflexivity
        | eexists [_]; split; reflexivity
        | eexists [_; _]; split; reflexivity ].

Lemma events_since_app before after evs :
  trace after = trace before ++ evs -> events_since before after = evs.
Proof. unfold events_since. intros ->. apply drop_app_length. Qed.

Lemma events_since_refl st : events_since st st = [].
Proof. unfold events_since. apply drop_all. Qed.

Lemma notifications_app l k : notifications (l ++ k) = notifications l ++ notifications k.
Proof. apply flat_map_app. Qed.

Lemma popups_app l k : popups (l ++ k) = popups l ++ popups k.
Proof. apply flat_map_app. Qed.

Lemma sleeps_app l k : sleeps (l ++ k) = sleeps l ++ sleeps k.
Proof. apply flat_map_app. Qed.

Lemma attempts_app l k : attempts (l ++ k) = attempts l ++ attempts k.
Proof. apply flat_map_app. Qed.

(** Console lines are none of the effects the claims count. *)
Lemma console_quiet evs :
  forallb is_console evs = true ->
  notifications evs = [] /\ popups evs = [] /\ sleeps evs = [] /\ attempts evs = [].
Proof.
  induction evs as [|ev evs IH]; simpl; [auto|].
  intros [Hev Hevs]%andb_prop. destruct ev; try discriminate. now apply IH.
Qed.

(** [fetch] records the request, counts it, and settles as the oracle says. *)
Lemma fetch_run {B} req (answer : World -> nat -> outcome B) st :
  fetch req answer st
  = (match answer (world st) (requests st) with
     | Rejected e => inl e
     | Resolved r => inr r
     end,
     count_request (log_event (Fetch req) st)).
Proof.
  unfold fetch. run_step.
  destruct (answer (world st) (requests st)); reflexivity.
Qed.

(* ===================================================================== *)
(** ** The status client *)
(* ===================================================================== *)

(** Rendered integers hold digits and a sign, never the letter [f]. *)
Lemma of_uint_lacks_f d : JsString.lacks "f" (NilEmpty.string_of_uint d) = true.
Proof. induction d; simpl; auto. Qed.

Lemma of_Z_lacks_f n : JsString.lacks "f" (JsString.of_Z n) = true.
Proof.
  unfold JsString.of_Z, NilZero.string_of_int, NilZero.string_of_uint.
  destruct (Z.to_int n) as [d|d]; destruct d; simpl;
    auto using of_uint_lacks_f.
Qed.

(** The two messages of an HTTP failure are no network errors for the
    [catch] block, whatever the status. *)
Lemma http_error_not_network status :
  isNetworkError (JsError.Error ("GitHub API rate limited: " +:+ JsString.of_Z status)) = false
  /\ isNetworkError (JsError.Error ("GitHub API error: " +:+ JsString.of_Z status)) = false.
Proof.
  unfold isNetworkError; simpl.
  split; apply includes_lacks; simpl; apply of_Z_lacks_f.
Qed.

(** One attempt, executed symbolically. *)
Lemma fetch_attempt_run o r st :
  fetch_attempt o r st
  = let st1 := count_request (log_event (Fetch (GetRuns o r)) st) in
    match github_runs (world st) (requests st) o r with
    | Rejected e => (inl e, st1)
    | Resolved resp =>
        if ok resp then
          match json resp with
          | inl e => (inl e, st1)
          | inr data => (inr (default [] data), st1)
          end
        else if status resp =? 403 then
          (inl (JsError.Error ("GitHub API rate limited: " +:+ JsString.of_Z (status resp))),
           log_event (Console Warn ["GitHub API rate limited for " +:+ o +:+ "/" +:+ r
                                    +:+ ". Waiting before retry..."]) st1)
        else
          (inl (JsError.Error ("GitHub API error: " +:+ JsString.of_Z (status resp))), st1)
    end.
Proof.
  unfold fetch_attempt, bind at 1. rewrite fetch_run.
  destruct (github_runs (world st) (requests st) o r) as [e|resp]; [reflexivity|].
  run_step. destruct (ok resp); simpl.
  - destruct (json resp) as [e|[runs|]]; reflexivity.
  - destruct (status resp =? 403); reflexivity.
Qed.

(** An attempt leaves the program's variables alone, issues one request
    and prints at most console lines after it. *)
Lemma fetch_attempt_frame o r st :
  let st' := snd (fetch_attempt o r st) in
  sources st' = sources st /\ workflowStates st' = workflowStates st
  /\ apiKey st' = apiKey st /\ world st' = world st
  /\ requests st' = S (requests st)
  /\ exists evs, trace st' = trace st ++ Fetch (GetRuns o r) :: evs
                 /\ forallb is_console evs = true.
Proof.
  rewrite fetch_attempt_run. cbv zeta.
  destruct (github_runs (world st) (requests st) o r) as [e|resp].
  - simpl. repeat split. exists []. auto.
  - destruct (ok resp); [destruct (json resp)|destruct (status resp =? 403)];
      simpl; repeat split;
      try (exists []; split; [reflexivity|reflexivity]).
    eexists [_]. split; [now rewrite <- app_assoc | reflexivity].
Qed.

(** The [catch] block never throws, touches nothing but the trace, and
    waits only when it lets the loop go on. *)
Lemma fetch_recover_run o r retries attempt e st :
  exists line,
    fetch_recover o r retries attempt e st
    = if Nat.eqb attempt retries then (inr (Some []), log_event (Console Error line) st)
      else if isNetworkError e then
        (inr None, log_event (Sleep (backoff_delay attempt))
                     (log_event (Console Warn line) st))
      else (inr (Some []), log_event (Console Error line) st).
Proof.
  unfold fetch_recover.
  destruct (Nat.eqb attempt retries); [|destruct (isNetworkError e)];
    eexists; reflexivity.
Qed.

(** One iteration of the loop, by what the attempt gave. *)
Lemma fetch_loop_step o r retries remaining attempt st :
  fetch_loop o r retries (S remaining) attempt st
  = match fetch_attempt o r st with
    | (inr runs, st1) => (inr runs, st1)
    | (inl e, st1) =>
        match fetch_recover o r retries attempt e st1 with
        | (inr (Some runs), st2) => (inr runs, st2)
        | (inr None, st2) => fetch_loop o r retries remaining (S attempt) st2
        | (inl e', st2) => (inl e', st2)
        end
    end.
Proof.
  cbn [fetch_loop]. unfold bind at 1, try_catch, bind at 1.
  destruct (fetch_attempt o r st) as [[e|runs] st1]; [|reflexivity].
  destruct (fetch_recover o r retries attempt e st1) as [[e'|[runs|]] st2];
    reflexivity.
Qed.

Lemma fetch_loop_returns o r retries remaining :
  forall attempt st,
    exists runs, fst (fetch_loop o r retries remaining attempt st) = inr runs.
Proof.
  induction remaining as [|remaining IH]; intros attempt st.
  - exists []. reflexivity.
  - rewrite fetch_loop_step.
    destruct (fetch_attempt o r st) as [[e|runs] st1]; [|now exists runs].
    destruct (fetch_recover_run o r retries attempt e st1) as [line ->].
    destruct (Nat.eqb attempt retries); [now exists []|].
    destruct (isNetworkError e); [apply IH | now exists []].
Qed.

Lemma silent_step_refl st : silent_step st st.
Proof.
  repeat split. exists []. now rewrite app_nil_r.
Qed.

Lemma silent_step_trans st1 st2 st3 :
  silent_step st1 st2 -> silent_step st2 st3 -> silent_step st1 st3.
Proof.
  intros (Hs & Hw & Hk & Hwd & evs & Ht & Hn & Hp)
         (Hs' & Hw' & Hk' & Hwd' & evs' & Ht' & Hn' & Hp').
  repeat split; try congruence.
  exists (evs ++ evs'). rewrite Ht', Ht, <- app_assoc, notifications_app, popups_app.
  rewrite Hn, Hn', Hp, Hp'. auto.
Qed.

Lemma silent_step_log ev st :
  notifications [ev] = [] -> popups [ev] = [] -> silent_step st (log_event ev st).
Proof. intros Hn Hp. repeat split. now exists [ev]. Qed.

Lemma fetch_attempt_silent o r st : silent_step st (snd (fetch_attempt o r st)).
Proof.
  destruct (fetch_attempt_frame o r st) as (Hs & Hw & Hk & Hwd & _ & evs & Ht & Hc).
  repeat split; try assumption.
  exists (Fetch (GetRuns o r) :: evs). split; [assumption|].
  apply console_quiet in Hc as (Hn & Hp & _). simpl. auto.
Qed.

Lemma fetch_loop_silent o r retries remaining :
  forall attempt st,
    silent_step st (snd (fetch_loop o r retries remaining attempt st)).
Proof.
  induction remaining as [|remaining IH]; intros attempt st.
  - apply silent_step_refl.
  - rewrite fetch_loop_step.
    pose proof (fetch_attempt_silent o r st) as Hstep.
    destruct (fetch_attempt o r st) as [[e|runs] st1]; [|exact Hstep].
    simpl in Hstep.
    destruct (fetch_recover_run o r retries attempt e st1) as [line ->].
    destruct (Nat.eqb attempt retries); [|destruct (isNetworkError e)]; simpl.
    + eapply silent_step_trans; [exact Hstep|]. now apply silent_step_log.
    + eapply silent_step_trans; [exact Hstep|].
      eapply silent_step_trans; [|apply IH].
      eapply silent_step_trans; apply silent_step_log; reflexivity.
    + eapply silent_step_trans; [exact Hstep|]. now apply silent_step_log.
Qed.

(** C1, on the code.  When the first answer is a rate-limit response
    (HTTP 403) and more than one attempt is allowed, [fetchWorkflowRuns]
    announces a retry on the console and then returns the empty list
    after that single request, without waiting: the error it throws for a
    403 is none of the three kinds the [catch] block retries. *)
Theorem rate_limit_not_retried o r retries st resp :
  (2 <= retries)%nat ->
  github_runs (world st) (requests st) o r = Resolved resp ->
  ok resp = false -> status resp = 403 ->
  fst (fetchWorkflowRuns o r retries st) = inr []
  /\ events_since st (snd (fetchWorkflowRuns o r retries st))
     = [ Fetch (GetRuns o r);
         Console Warn ["GitHub API rate limited for " +:+ o +:+ "/" +:+ r
                       +:+ ". Waiting before retry..."];
         Console Error ["Non-network error for " +:+ o +:+ "/" +:+ r +:+ ":";
                        "GitHub API rate limited: 403"] ].
Proof.
  intros Hretries Hanswer Hok Hstatus. unfold fetchWorkflowRuns.
  destruct retries as [|[|retries]]; [lia|lia|].
  rewrite fetch_loop_step, fetch_attempt_run, Hanswer. cbv zeta.
  rewrite Hok, Hstatus. simpl.
  split; [reflexivity|].
  apply events_since_app. simpl. now rewrite <- !app_assoc.
Qed.

Lemma rate_limit_not_retried_witness :
  let st := started (scripted (fun _ => http 403 None) (Rejected fetch_failed)) in
  fst (fetchWorkflowRuns "tnylea" "failwhale" 3 st) = inr []
  /\ attempts (events_since st (snd (fetchWorkflowRuns "tnylea" "failwhale" 3 st)))
     = [("tnylea", "failwhale")]
  /\ sleeps (events_since st (snd (fetchWorkflowRuns "tnylea" "failwhale" 3 st))) = [].
Proof.
  intros st.
  destruct (rate_limit_not_retried "tnylea" "failwhale" 3 st
              {| ok := false; status := 403; json := inr None |})
    as [Hres Hevs]; [lia | reflexivity | reflexivity | reflexivity |].
  rewrite Hevs. split; [exact Hres|]. split; reflexivity.
Defined.

(** A failure the [catch] block does not retry ends the call at once. *)
Lemma fetch_loop_gives_up o r retries remaining attempt st e :
  fst (fetch_attempt o r st) = inl e -> isNetworkError e = false ->
  exists line,
    fetch_loop o r retries (S remaining) attempt st
    = (inr [], log_event (Console Error line) (snd (fetch_attempt o r st))).
Proof.
  intros Hfail Hkind. rewrite fetch_loop_step.
  destruct (fetch_attempt o r st) as [res st1]. simpl in Hfail. subst res.
  destruct (fetch_recover_run o r retries attempt e st1) as [line ->].
  rewrite Hkind. exists line. now destruct (Nat.eqb attempt retries).
Qed.

(** C7.  [fetchWorkflowRuns] always returns a list, whatever the network
    does.  When the first attempt fails with an error that is not a
    network error, it returns the empty list after that one request and
    without waiting.  Every answer with a non-ok status, such as 404,
    is such a failure. *)
Theorem fetchWorkflowRuns_never_throws :
  (forall o r retries st,
      exists runs, fst (fetchWorkflowRuns o r retries st) = inr runs)
  /\ (forall o r retries st e,
      (1 <= retries)%nat ->
      fst (fetch_attempt o r st) = inl e -> isNetworkError e = false ->
      fst (fetchWorkflowRuns o r retries st) = inr []
      /\ attempts (events_since st (snd (fetchWorkflowRuns o r retries st))) = [(o, r)]
      /\ sleeps (events_since st (snd (fetchWorkflowRuns o r retries st))) = [])
  /\ (forall o r st resp,
      github_runs (world st) (requests st) o r = Resolved resp -> ok resp = false ->
      exists e, fst (fetch_attempt o r st) = inl e /\ isNetworkError e = false).
Proof.
  split; [|split].
  - intros. apply fetch_loop_returns.
  - intros o r retries st e Hretries Hfail Hkind. unfold fetchWorkflowRuns.
    destruct retries as [|retries]; [lia|].
    destruct (fetch_loop_gives_up o r (S retries) retries 1%nat st e Hfail Hkind)
      as [line ->].
    destruct (fetch_attempt_frame o r st) as (_ & _ & _ & _ & _ & evs & Ht & Hc).
    apply console_quiet in Hc as (_ & _ & Hsl & Hat).
    split; [reflexivity|].
    rewrite (events_since_app st _ (Fetch (GetRuns o r) :: evs ++ [Console Error line])).
    + simpl. rewrite attempts_app, sleeps_app, Hsl, Hat. auto.
    + simpl. rewrite Ht, <- app_assoc. reflexivity.
  - intros o r st resp Hanswer Hok.
    rewrite fetch_attempt_run, Hanswer. cbv zeta. rewrite Hok.
    destruct (http_error_not_network (status resp)) as [Hlimit Hother].
    destruct (status resp =? 403); eexists; split; try reflexivity; assumption.
Qed.

Lemma fetchWorkflowRuns_never_throws_witness :
  let st := started (scripted (fun _ => http 404 None) (Rejected fetch_failed)) in
  fst (fetchWorkflowRuns "tnylea" "missing" 3 st) = inr []
  /\ attempts (events_since st (snd (fetchWorkflowRuns "tnylea" "missing" 3 st)))
     = [("tnylea", "missing")]
  /\ sleeps (events_since st (snd (fetchWorkflowRuns "tnylea" "missing" 3 st))) = [].
Proof.
  intros st.
  apply (proj1 (proj2 fetchWorkflowRuns_never_throws) "tnylea" "missing" 3%nat st
           (JsError.Error "GitHub API error: 404")).
  - lia.
  - reflexivity.
  - reflexivity.
Defined.

(** Two network errors and then an answer: the answer is returned. *)
Example two_failures_then_success :
  let latest := {| Run.id := 7; Run.status := "in_progress"; Run.conclusion := None |} in
  let w := scripted (fun n => match n with
                              | 0%nat | 1%nat => Rejected fetch_failed
                              | _ => http 200 (Some [latest])
                              end) (Rejected fetch_failed) in
  let result := fetchWorkflowRuns "a" "b" 3 (started w) in
  fst result = inr [latest]
  /\ sleeps (trace (snd result)) = [1000; 2000]
  /\ attempts (trace (snd result)) = [("a", "b"); ("a", "b"); ("a", "b")].
Proof. repeat split. Qed.

(** When every attempt meets a dead network, the waits double up to the
    cap and the last attempt is not followed by one. *)
Example backoff_schedule :
  let w := scripted (fun _ => Rejected fetch_failed) (Rejected fetch_failed) in
  let result := fetchWorkflowRuns "a" "b" 8 (started w) in
  fst result = inr []
  /\ sleeps (trace (snd result)) = [1000; 2000; 4000; 8000; 16000; 30000; 30000].
Proof. split; vm_compute; reflexivity. Qed.

(** C8.  When attempt [n] (counted from 1, and not the last one allowed)
    fails with a network error, the loop prints a warning, waits
    [min (1000 * 2^(n-1), 30000)] milliseconds and goes on with attempt
    [n + 1].  That is 1000 after attempt 1, 2000 after attempt 2, and
    30000 from attempt 6 on. *)
Theorem backoff_between_retries o r retries remaining n st e :
  (1 <= n)%nat -> n <> retries ->
  fst (fetch_attempt o r st) = inl e -> isNetworkError e = true ->
  let delay := Z.min (1000 * 2 ^ (Z.of_nat n - 1)) 30000 in
  (exists line,
      fetch_loop o r retries (S remaining) n st
      = fetch_loop o r retries remaining (S n)
          (log_event (Sleep delay)
             (log_event (Console Warn line) (snd (fetch_attempt o r st)))))
  /\ (n = 1%nat -> delay = 1000)
  /\ (n = 2%nat -> delay = 2000)
  /\ ((6 <= n)%nat -> delay = 30000).
Proof.
  intros Hn Hlast Hfail Hkind delay. split; [|split; [|split]].
  - rewrite fetch_loop_step.
    destruct (fetch_attempt o r st) as [res st1]. simpl in Hfail. subst res.
    destruct (fetch_recover_run o r retries n e st1) as [line ->].
    apply Nat.eqb_neq in Hlast. rewrite Hlast, Hkind.
    exists line. reflexivity.
  - intros ->. reflexivity.
  - intros ->. reflexivity.
  - intros Hbig. unfold delay. apply Z.min_r.
    assert (2 ^ 5 <= 2 ^ (Z.of_nat n - 1)) by (apply Z.pow_le_mono_r; lia).
    change (2 ^ 5) with 32 in H. lia.
Qed.

Lemma backoff_between_retries_witness :
  let st := started (scripted (fun _ => Rejected fetch_failed) (Rejected fetch_failed)) in
  exists line,
    fetch_loop "a" "b" 3 3 1 st
    = fetch_loop "a" "b" 3 2 2
        (log_event (Sleep 1000)
           (log_event (Console Warn line) (snd (fetch_attempt "a" "b" st)))).
Proof.
  intros st.
  apply (proj1 (backoff_between_retries "a" "b" 3 2 1 st fetch_failed
                  (le_n 1) ltac:(discriminate) eq_refl eq_refl)).
Defined.

(* ===================================================================== *)
(** ** The image collaborator *)
(* ===================================================================== *)

(** [getRandomGif] never throws.  It issues one request; its result
    carries the URL of the image the answer holds and the empty URL when
    the request fails or the answer holds no image.  It changes none of
    the program's variables and prints at most console lines. *)
Lemma getRandomGif_spec tag st :
  exists g st',
    getRandomGif tag st = (inr g, st')
    /\ GifData.url g
       = image_url (giphy_random (world st) (requests st) (apiKey st) tag)
    /\ sources st' = sources st /\ workflowStates st' = workflowStates st
    /\ apiKey st' = apiKey st /\ world st' = world st
    /\ requests st' = S (requests st)
    /\ exists evs, trace st' = trace st ++ Fetch (GetGif (apiKey st) tag) :: evs
                   /\ forallb is_console evs = true.
Proof.
  unfold getRandomGif, image_url, image_of.
  unfold bind at 1, try_catch. unfold bind at 1, gets. unfold bind at 1.
  rewrite fetch_run.
  destruct (giphy_random (world st) (requests st) (apiKey st) tag) as [e|resp].
  - run_step. do 2 eexists. repeat split. trace_tail.
  - destruct resp as [okay code body]. destruct okay.
    + destruct body as [e|[[gif|]|]]; run_step; do 2 eexists; repeat split;
        trace_tail.
    + run_step. do 2 eexists. repeat split. trace_tail.
Qed.

(** The notification of a transition: ask for an image with the tag, show
    the popup when the image has a URL, store the record.  The record is
    stored in every case. *)
Lemma notify_run tag sourceKey record st :
  exists g st',
    (do gifData <- getRandomGif tag in
     do _ <- (if JsString.truthy (GifData.url gifData)
              then createGifWindow gifData else ret tt) in
     states_set sourceKey record) st = (inr tt, st')
    /\ GifData.url g
       = image_url (giphy_random (world st) (requests st) (apiKey st) tag)
    /\ workflowStates st' = <[sourceKey := record]> (workflowStates st)
    /\ sources st' = sources st
    /\ notifications (events_since st st') = [tag]
    /\ popups (events_since st st')
       = if JsString.truthy (GifData.url g) then [g] else [].
Proof.
  destruct (getRandomGif_spec tag st)
    as (g & st1 & Hrun & Hurl & Hs & Hw & _ & _ & _ & evs & Ht & Hc).
  apply console_quiet in Hc as (Hn & Hp & _).
  exists g. unfold bind at 1. rewrite Hrun.
  destruct (JsString.truthy (GifData.url g)) eqn:Hshow; run_step;
    eexists; (split; [reflexivity|]); simpl; repeat split; try congruence.
  - erewrite events_since_app by (simpl; rewrite Ht, <- app_assoc; reflexivity).
    simpl. rewrite notifications_app, Hn. reflexivity.
  - erewrite events_since_app by (simpl; rewrite Ht, <- app_assoc; reflexivity).
    simpl. rewrite popups_app, Hp. reflexivity.
  - erewrite events_since_app by (simpl; rewrite Ht; reflexivity).
    simpl. now rewrite Hn.
  - erewrite events_since_app by (simpl; rewrite Ht; reflexivity).
    simpl. now rewrite Hp.
Qed.

(* ===================================================================== *)
(** ** The tracker *)
(* ===================================================================== *)

(** Step 1: an unseen repo gets its record and nothing else happens. *)
Lemma track_first_sight sourceKey R st :
  workflowStates st !! sourceKey = None ->
  track sourceKey R st
  = (inr tt,
     set_workflowStates
       (<[sourceKey := {| WorkflowState.latestRunId := Run.id R;
                          WorkflowState.status := Run.status R;
                          WorkflowState.conclusion := Run.conclusion R;
                          WorkflowState.notifiedStart := false |}]>
          (workflowStates st)) st).
Proof.
  intros Hnew. unfold track. unfold bind at 1, gets. now rewrite Hnew.
Qed.

(** Step 2, second case: a new run that has already completed. *)
Lemma track_superseded_completed sourceKey R P st :
  workflowStates st !! sourceKey = Some P ->
  Run.id R <> WorkflowState.latestRunId P -> Run.status R = "completed" ->
  track sourceKey R st = (inr tt, st).
Proof.
  intros Hprev Hid Hdone. unfold track. unfold bind at 1, gets. rewrite Hprev.
  apply Z.eqb_neq in Hid. now rewrite Hid, Hdone.
Qed.

(** Step 2, first case. *)
Lemma track_started sourceKey R P st :
  workflowStates st !! sourceKey = Some P -> run_started P R ->
  track sourceKey R st
  = (do gifData <- getRandomGif started_tag in
     do _ <- (if JsString.truthy (GifData.url gifData)
              then createGifWindow gifData else ret tt) in
     states_set sourceKey
       {| WorkflowState.latestRunId := Run.id R;
          WorkflowState.status := Run.status R;
          WorkflowState.conclusion := Run.conclusion R;
          WorkflowState.notifiedStart := true |}) st.
Proof.
  intros Hprev [Hid Hrunning]. unfold track. unfold bind at 1, gets. rewrite Hprev.
  apply Z.eqb_neq in Hid. rewrite Hid.
  apply String.eqb_neq in Hrunning. now rewrite Hrunning.
Qed.

Lemma finished_tag_eq R :
  match Run.conclusion R with
  | Some c => if String.eqb c "success" then "success" else "failure"
  | None => "failure"
  end = finished_tag R.
Proof.
  unfold finished_tag. destruct (Run.conclusion R) as [c|].
  - destruct (String.eqb_spec c "success") as [->|Hne].
    + now rewrite decide_True.
    + rewrite decide_False; [reflexivity|congruence].
  - now rewrite decide_False.
Qed.

(** Step 3. *)
Lemma track_finished sourceKey R P st :
  workflowStates st !! sourceKey = Some P -> run_finished P R ->
  track sourceKey R st
  = (do gifData <- getRandomGif (finished_tag R) in
     do _ <- (if JsString.truthy (GifData.url gifData)
              then createGifWindow gifData else ret tt) in
     states_set sourceKey
       {| WorkflowState.latestRunId := Run.id R;
          WorkflowState.status := Run.status R;
          WorkflowState.conclusion := Run.conclusion R;
          WorkflowState.notifiedStart := false |}) st.
Proof.
  intros Hprev (Hid & Hrunning & Hdone).
  unfold track. unfold bind at 1, gets. rewrite Hprev.
  apply Z.eqb_eq in Hid. rewrite Hid.
  apply String.eqb_neq in Hrunning. rewrite Hrunning, Hdone. simpl.
  now rewrite finished_tag_eq.
Qed.

(** What a notified transition leaves behind. *)
Lemma track_notifies sourceKey R P st tag :
  workflowStates st !! sourceKey = Some P ->
  (run_started P R /\ tag = started_tag) \/ (run_finished P R /\ tag = finished_tag R) ->
  exists g,
    let st' := snd (track sourceKey R st) in
    fst (track sourceKey R st) = inr tt
    /\ GifData.url g
       = image_url (giphy_random (world st) (requests st) (apiKey st) tag)
    /\ tracks st' sourceKey R
    /\ (forall record, workflowStates st' !! sourceKey = Some record ->
          WorkflowState.notifiedStart record = bool_decide (tag = started_tag))
    /\ sources st' = sources st
    /\ notifications (events_since st st') = [tag]
    /\ popups (events_since st st')
       = if JsString.truthy (GifData.url g) then [g] else [].
Proof.
  intros Hprev [[Htrans ->] | [Htrans ->]].
  - rewrite (track_started _ _ _ _ Hprev Htrans).
    edestruct notify_run as (g & st' & -> & Hurl & Hw & Hs & Hn & Hp).
    exists g. simpl. repeat split; try assumption.
    + eexists. rewrite Hw, lookup_insert_eq. repeat split.
    + intros record. rewrite Hw, lookup_insert_eq. now intros [= <-].
  - rewrite (track_finished _ _ _ _ Hprev Htrans).
    edestruct notify_run as (g & st' & -> & Hurl & Hw & Hs & Hn & Hp).
    exists g. simpl. repeat split; try assumption.
    + eexists. rewrite Hw, lookup_insert_eq. repeat split.
    + intros record. rewrite Hw, lookup_insert_eq. intros [= <-]. simpl.
      unfold finished_tag, started_tag. now destruct (decide _).
Qed.

(** C2 as stated fails: with run 5 tracked as in progress, seeing run 6
    already completed leaves the record at run 5. *)
Lemma superseded_completed_not_recorded :
  ~ (forall sourceKey st P R,
        workflowStates st !! sourceKey = Some P ->
        Run.id R <> WorkflowState.latestRunId P -> Run.status R = "completed" ->
        tracks (snd (track sourceKey R st)) sourceKey R).
Proof.
  intros H.
  pose (P := {| WorkflowState.latestRunId := 5; WorkflowState.status := "in_progress";
                WorkflowState.conclusion := None;
                WorkflowState.notifiedStart := false |}).
  pose (R := {| Run.id := 6; Run.status := "completed";
                Run.conclusion := Some "success" |}).
  pose (st := set_workflowStates {["a/b" := P]}
                (started (scripted (fun _ => http 200 (Some [R])) (http 200 (Some (Some whale_gif)))))).
  destruct (H "a/b" st P R) as (record & Hrecord & Hid & _).
  - reflexivity.
  - discriminate.
  - reflexivity.
  - vm_compute in Hrecord. injection Hrecord as <-. discriminate Hid.
Qed.

(** C2, as the code has it.  When the latest run is not the tracked one
    and has already completed, the pass does nothing for that repo: no
    image is asked for, no popup is shown, and the stored record stays
    the one of the run tracked before. *)
Theorem superseded_completed_ignored sourceKey st P R :
  workflowStates st !! sourceKey = Some P ->
  Run.id R <> WorkflowState.latestRunId P -> Run.status R = "completed" ->
  let st' := snd (track sourceKey R st) in
  fst (track sourceKey R st) = inr tt
  /\ notifications (events_since st st') = []
  /\ popups (events_since st st') = []
  /\ workflowStates st' !! sourceKey = Some P
  /\ st' = st.
Proof.
  intros Hprev Hid Hdone.
  rewrite (track_superseded_completed _ _ _ _ Hprev Hid Hdone). simpl.
  rewrite events_since_refl. auto.
Qed.

Lemma superseded_completed_ignored_witness :
  let P := {| WorkflowState.latestRunId := 5; WorkflowState.status := "in_progress";
              WorkflowState.conclusion := None;
              WorkflowState.notifiedStart := false |} in
  let R := {| Run.id := 6; Run.status := "completed";
              Run.conclusion := Some "success" |} in
  let st := set_workflowStates {["a/b" := P]}
              (started (scripted (fun _ => http 200 (Some [R]))
                                 (http 200 (Some (Some whale_gif))))) in
  workflowStates (snd (track "a/b" R st)) !! "a/b" = Some P.
Proof.
  intros P R st.
  apply (superseded_completed_ignored "a/b" st P R);
    [reflexivity | discriminate | reflexivity].
Defined.

(** C3.  For an unseen repo, the first sight of a run in progress stores
    its record and notifies nothing.  Seeing the same run completed at the
    next pass invokes the notification once, with the tag [success] when
    the conclusion is [success] and [failure] for any other conclusion,
    shows at most one popup (exactly one when the image has a URL), and
    stores the completed run. *)
Theorem in_progress_then_completed sourceKey st id concl0 concl :
  workflowStates st !! sourceKey = None ->
  let first := {| Run.id := id; Run.status := "in_progress"; Run.conclusion := concl0 |} in
  let second := {| Run.id := id; Run.status := "completed"; Run.conclusion := concl |} in
  let st1 := snd (track sourceKey first st) in
  let st2 := snd (track sourceKey second st1) in
  fst (track sourceKey first st) = inr tt
  /\ events_since st st1 = []
  /\ tracks st1 sourceKey first
  /\ fst (track sourceKey second st1) = inr tt
  /\ notifications (events_since st1 st2)
     = [if decide (concl = Some "success") then "success" else "failure"]
  /\ (concl = Some "success" -> notifications (events_since st1 st2) = ["success"])
  /\ (concl = Some "cancelled" -> notifications (events_since st1 st2) = ["failure"])
  /\ (exists g,
        GifData.url g
        = image_url (giphy_random (world st1) (requests st1) (apiKey st1)
                       (finished_tag second))
        /\ popups (events_since st1 st2)
           = if JsString.truthy (GifData.url g) then [g] else [])
  /\ tracks st2 sourceKey second.
Proof.
  intros Hnew first second st1 st2.
  assert (Hst1 : track sourceKey first st
                 = (inr tt, set_workflowStates
                              (<[sourceKey := {| WorkflowState.latestRunId := id;
                                                 WorkflowState.status := "in_progress";
                                                 WorkflowState.conclusion := concl0;
                                                 WorkflowState.notifiedStart := false |}]>
                                 (workflowStates st)) st))
    by (now rewrite track_first_sight).
  assert (Hprev : workflowStates st1 !! sourceKey
                  = Some {| WorkflowState.latestRunId := id;
                            WorkflowState.status := "in_progress";
                            WorkflowState.conclusion := concl0;
                            WorkflowState.notifiedStart := false |}).
  { unfold st1. rewrite Hst1. simpl. apply lookup_insert_eq. }
  destruct (track_notifies sourceKey second _ st1 (finished_tag second) Hprev)
    as (g & Hok & Hurl & Htracks & _ & _ & Hn & Hp).
  { right. split; [|reflexivity]. repeat split. discriminate. }
  fold st2 in Hok, Htracks, Hn, Hp.
  split; [now rewrite Hst1|].
  split; [unfold st1; rewrite Hst1; apply events_since_app; simpl;
          now rewrite app_nil_r|].
  split; [eexists; split; [exact Hprev|]; repeat split|].
  split; [exact Hok|].
  split; [exact Hn|].
  split; [intros ->; exact Hn|].
  split; [intros ->; exact Hn|].
  split; [now exists g | exact Htracks].
Qed.

Lemma in_progress_then_completed_witness :
  let st := started (scripted (fun _ => Rejected fetch_failed)
                              (http 200 (Some (Some whale_gif)))) in
  let first := {| Run.id := 1; Run.status := "in_progress"; Run.conclusion := None |} in
  let second := {| Run.id := 1; Run.status := "completed";
                   Run.conclusion := Some "success" |} in
  let st1 := snd (track "a/b" first st) in
  let st2 := snd (track "a/b" second st1) in
  events_since st st1 = [] /\ notifications (events_since st1 st2) = ["success"].
Proof.
  intros st first second st1 st2.
  destruct (in_progress_then_completed "a/b" st 1 None (Some "success") eq_refl)
    as (_ & Hfirst & _ & _ & _ & Hsuccess & _).
  split; [exact Hfirst | exact (Hsuccess eq_refl)].
Defined.

(** C4.  With run 5 tracked as in progress, seeing run 6 in progress
    invokes the notification once, with the tag of a started run, shows
    at most one popup (exactly one when the image has a URL), and stores
    run 6, marked as start-notified. *)
Theorem new_run_started sourceKey st P R :
  workflowStates st !! sourceKey = Some P ->
  WorkflowState.latestRunId P = 5 -> WorkflowState.status P = "in_progress" ->
  Run.id R = 6 -> Run.status R = "in_progress" ->
  let st' := snd (track sourceKey R st) in
  fst (track sourceKey R st) = inr tt
  /\ notifications (events_since st st') = [started_tag]
  /\ (exists g,
        GifData.url g
        = image_url (giphy_random (world st) (requests st) (apiKey st) started_tag)
        /\ popups (events_since st st')
           = if JsString.truthy (GifData.url g) then [g] else [])
  /\ workflowStates st' !! sourceKey
     = Some {| WorkflowState.latestRunId := 6; WorkflowState.status := "in_progress";
               WorkflowState.conclusion := Run.conclusion R;
               WorkflowState.notifiedStart := true |}.
Proof.
  intros Hprev Hpid Hpstatus Hid Hstatus st'.
  assert (Htrans : run_started P R)
    by (split; [rewrite Hid, Hpid; discriminate | rewrite Hstatus; discriminate]).
  destruct (track_notifies sourceKey R P st started_tag Hprev)
    as (g & Hok & Hurl & (record & Hrecord & Hrid & Hrstatus & Hrconcl)
          & Hflag & _ & Hn & Hp); [now left|].
  fold st' in Hrecord, Hflag, Hn, Hp.
  split; [exact Hok|]. split; [exact Hn|]. split; [now exists g|].
  rewrite Hrecord. specialize (Hflag record Hrecord).
  destruct record as [rid rstatus rconcl rflag]. simpl in *.
  now rewrite Hrid, Hrstatus, Hrconcl, Hflag, Hid, Hstatus.
Qed.

Lemma new_run_started_witness :
  let P := {| WorkflowState.latestRunId := 5; WorkflowState.status := "in_progress";
              WorkflowState.conclusion := None;
              WorkflowState.notifiedStart := false |} in
  let R := {| Run.id := 6; Run.status := "in_progress"; Run.conclusion := None |} in
  let st := set_workflowStates {["a/b" := P]}
              (started (scripted (fun _ => http 200 (Some [R]))
                                 (http 200 (Some (Some whale_gif))))) in
  notifications (events_since st (snd (track "a/b" R st))) = [started_tag]
  /\ WorkflowState.latestRunId <$> workflowStates (snd (track "a/b" R st)) !! "a/b"
     = Some 6.
Proof.
  intros P R st.
  destruct (new_run_started "a/b" st P R eq_refl eq_refl eq_refl eq_refl eq_refl)
    as (_ & Hn & _ & Hrecord).
  split; [exact Hn|]. now rewrite Hrecord.
Defined.

(* ===================================================================== *)
(** ** The source store *)
(* ===================================================================== *)

(** Saving never throws: a failed write ends as a console line. *)
Lemma saveSources_run st :
  exists level line,
    saveSources st
    = (inr tt, log_event (Console level line)
                 (log_event (WriteSources (sources st)) st)).
Proof.
  unfold saveSources. run_step.
  destruct (write_file (world st) (sources st)); do 2 eexists; reflexivity.
Qed.

(** Removing the source at a position that exists. *)
Lemma remove_source_run (n : nat) removed st :
  sources st !! n = Some removed ->
  exists st',
    remove_source (Z.of_nat n) st = (inr true, st')
    /\ sources st' = delete n (sources st)
    /\ workflowStates st'
       = match extractRepoInfo (Source.url removed) with
         | Some repoInfo => delete (sourceKey_of repoInfo) (workflowStates st)
         | None => workflowStates st
         end.
Proof.
  intros Hat. unfold remove_source. unfold bind at 1, gets.
  assert (Hrange : (0 <=? Z.of_nat n) && (Z.of_nat n <? Z.of_nat (length (sources st)))
                   = true).
  { apply lookup_lt_Some in Hat. apply andb_true_intro.
    split; [apply Z.leb_le | apply Z.ltb_lt]; lia. }
  rewrite Hrange, Nat2Z.id, Hat.
  unfold bind at 1. unfold bind at 1, modify. unfold bind at 1.
  destruct (saveSources_run (set_sources (delete n (sources st)) st))
    as (level & line & ->).
  destruct (extractRepoInfo (Source.url removed)); run_step;
    eexists; repeat split.
Qed.

(** The loop body, by what the fetch gave. *)
Lemma check_source_step source repoInfo st :
  extractRepoInfo (Source.url source) = Some repoInfo ->
  check_source source st
  = match fetchWorkflowRuns (owner repoInfo) (repo repoInfo) 3 st with
    | (inl e, st1) => (inl e, st1)
    | (inr [], st1) => (inr tt, st1)
    | (inr (latestRun :: _), st1) => track (sourceKey_of repoInfo) latestRun st1
    end.
Proof.
  intros Hinfo. unfold check_source. rewrite Hinfo. unfold bind.
  destruct (fetchWorkflowRuns (owner repoInfo) (repo repoInfo) 3 st)
    as [[e|[|latestRun runs]] st1]; reflexivity.
Qed.

(** The first successful poll of an unseen repo, and any failed one. *)
Lemma check_source_unseen source repoInfo st :
  extractRepoInfo (Source.url source) = Some repoInfo ->
  workflowStates st !! sourceKey_of repoInfo = None ->
  exists runs,
    let st' := snd (check_source source st) in
    fst (fetchWorkflowRuns (owner repoInfo) (repo repoInfo) 3 st) = inr runs
    /\ fst (check_source source st) = inr tt
    /\ notifications (events_since st st') = []
    /\ popups (events_since st st') = []
    /\ workflowStates st'
       = match runs with
         | [] => workflowStates st
         | latestRun :: _ =>
             <[sourceKey_of repoInfo :=
                 {| WorkflowState.latestRunId := Run.id latestRun;
                    WorkflowState.status := Run.status latestRun;
                    WorkflowState.conclusion := Run.conclusion latestRun;
                    WorkflowState.notifiedStart := false |}]> (workflowStates st)
         end.
Proof.
  intros Hinfo Hnew. rewrite (check_source_step _ _ _ Hinfo).
  destruct (fetch_loop_returns (owner repoInfo) (repo repoInfo) 3 3 1 st)
    as [runs Hruns].
  pose proof (fetch_loop_silent (owner repoInfo) (repo repoInfo) 3 3 1 st)
    as (Hs & Hw & _ & _ & evs & Ht & Hn & Hp).
  fold (fetchWorkflowRuns (owner repoInfo) (repo repoInfo) 3) in Hruns, Hs, Hw, Ht.
  exists runs.
  destruct (fetchWorkflowRuns (owner repoInfo) (repo repoInfo) 3 st) as [res st1].
  simpl in Hruns, Hs, Hw, Ht. subst res.
  destruct runs as [|latestRun runs].
  - simpl. rewrite (events_since_app st st1 evs Ht). auto.
  - rewrite track_first_sight by (now rewrite Hw). simpl.
    rewrite (events_since_app st _ evs) by exact Ht. rewrite Hw. auto.
Qed.

(** C5.  For a source whose repo has no record yet, a pass whose fetch
    returns runs stores the record of the latest run, whatever its status
    and conclusion, without asking for an image or showing a popup; a
    pass whose fetch returns nothing stores no record.  Removing a source
    that resolves to a repo removes the record of that repo. *)
Theorem state_record_lifecycle :
  (forall source repoInfo st,
      extractRepoInfo (Source.url source) = Some repoInfo ->
      workflowStates st !! sourceKey_of repoInfo = None ->
      let st' := snd (check_source source st) in
      fst (check_source source st) = inr tt
      /\ notifications (events_since st st') = []
      /\ popups (events_since st st') = []
      /\ match fst (fetchWorkflowRuns (owner repoInfo) (repo repoInfo) 3 st) with
         | inr (latestRun :: _) =>
             workflowStates st' !! sourceKey_of repoInfo
             = Some {| WorkflowState.latestRunId := Run.id latestRun;
                       WorkflowState.status := Run.status latestRun;
                       WorkflowState.conclusion := Run.conclusion latestRun;
                       WorkflowState.notifiedStart := false |}
         | _ => workflowStates st' !! sourceKey_of repoInfo = None
         end)
  /\ (forall (n : nat) removed repoInfo st,
      sources st !! n = Some removed ->
      extractRepoInfo (Source.url removed) = Some repoInfo ->
      let st' := snd (remove_source (Z.of_nat n) st) in
      fst (remove_source (Z.of_nat n) st) = inr true
      /\ sources st' = delete n (sources st)
      /\ workflowStates st' !! sourceKey_of repoInfo = None).
Proof.
  split.
  - intros source repoInfo st Hinfo Hnew.
    destruct (check_source_unseen source repoInfo st Hinfo Hnew)
      as (runs & Hruns & Hok & Hn & Hp & Hw).
    cbv zeta in *. rewrite Hruns. repeat split; try assumption.
    destruct runs as [|latestRun runs]; rewrite Hw.
    + exact Hnew.
    + apply lookup_insert_eq.
  - intros n removed repoInfo st Hat Hinfo.
    destruct (remove_source_run n removed st Hat) as (st' & -> & Hs & Hw).
    simpl. rewrite Hinfo in Hw. rewrite Hw.
    repeat split; [assumption | apply lookup_delete_eq].
Qed.

Lemma state_record_lifecycle_witness :
  let failed := {| Run.id := 9; Run.status := "completed";
                   Run.conclusion := Some "failure" |} in
  let source := {| Source.url := "https://github.com/a/b";
                   Source.added := "2024-01-01T00:00:00.000Z" |} in
  let st := set_sources [source]
              (started (scripted (fun _ => http 200 (Some [failed]))
                                 (http 200 (Some (Some whale_gif))))) in
  let st1 := snd (check_source source st) in
  let st2 := snd (remove_source 0 st1) in
  notifications (events_since st st1) = []
  /\ WorkflowState.latestRunId <$> workflowStates st1 !! "a/b" = Some 9
  /\ workflowStates st2 !! "a/b" = None.
Proof.
  intros failed source st st1 st2.
  destruct state_record_lifecycle as [Hcreate Hremove].
  destruct (Hcreate source {| owner := "a"; repo := "b" |} st eq_refl eq_refl)
    as (_ & Hn & _ & Hrecord).
  destruct (Hremove 0%nat source {| owner := "a"; repo := "b" |} st1 eq_refl eq_refl)
    as (_ & _ & Hgone).
  split; [exact Hn|]. split; [|exact Hgone].
  change (workflowStates st1 !! sourceKey_of {| owner := "a"; repo := "b" |}
          = Some {| WorkflowState.latestRunId := 9;
                    WorkflowState.status := "completed";
                    WorkflowState.conclusion := Some "failure";
                    WorkflowState.notifiedStart := false |}) in Hrecord.
  change (sourceKey_of {| owner := "a"; repo := "b" |}) with "a/b" in Hrecord.
  now rewrite Hrecord.
Defined.

Lemma existsb_url_In url (l : list Source.t) :
  existsb (fun source => String.eqb (Source.url source) url) l = true
  <-> In url (map Source.url l).
Proof.
  rewrite existsb_exists, in_map_iff. split.
  - intros (source & Hin & Heq). apply String.eqb_eq in Heq. eauto.
  - intros (source & Heq & Hin). exists source. split; [assumption|].
    now apply String.eqb_eq.
Qed.

(** The handler, executed symbolically. *)
Lemma add_source_run url st :
  exists level line,
    add_source url st
    = match extractRepoInfo url with
      | None => (inl (JsError.Error "Invalid GitHub URL"), st)
      | Some _ =>
          if existsb (fun source => String.eqb (Source.url source) url) (sources st)
          then (inl (JsError.Error "Source already exists"), st)
          else
            let stored :=
              set_sources (sources st ++ [{| Source.url := url;
                                             Source.added := date_now (world st) |}])
                st in
            (inr true, log_event (Console level line)
                         (log_event (WriteSources (sources stored)) stored))
      end.
Proof.
  unfold add_source.
  destruct (extractRepoInfo url) as [repoInfo|];
    [|exists Log, []; reflexivity].
  unfold bind at 1, gets.
  destruct (existsb _ (sources st)); [exists Log, []; reflexivity|].
  unfold bind at 1, gets. unfold bind at 1, modify. unfold bind at 1.
  destruct (saveSources_run
              (set_sources (sources st ++ [{| Source.url := url;
                                               Source.added := date_now (world st) |}])
                 st)) as (level & line & ->).
  exists level, line. reflexivity.
Qed.

(** C9.  ['add-source'] throws [Invalid GitHub URL] exactly when the
    resolver returns nothing for the url.  For a url that resolves, it
    throws [Source already exists] when a stored source has that very url,
    and otherwise appends the source, stamped with the current time, and
    returns [true].  Whenever it throws, the state is what it was. *)
Theorem add_source_outcomes url st :
  (fst (add_source url st) = inl (JsError.Error "Invalid GitHub URL")
   <-> extractRepoInfo url = None)
  /\ (extractRepoInfo url <> None -> In url (map Source.url (sources st)) ->
      fst (add_source url st) = inl (JsError.Error "Source already exists"))
  /\ (extractRepoInfo url <> None -> ~ In url (map Source.url (sources st)) ->
      fst (add_source url st) = inr true
      /\ sources (snd (add_source url st))
         = sources st ++ [{| Source.url := url;
                             Source.added := date_now (world st) |}]
      /\ workflowStates (snd (add_source url st)) = workflowStates st)
  /\ (forall e, fst (add_source url st) = inl e -> snd (add_source url st) = st).
Proof.
  destruct (add_source_run url st) as (level & line & ->).
  destruct (extractRepoInfo url) as [repoInfo|] eqn:Hinfo.
  - destruct (existsb _ (sources st)) eqn:Hdup.
    + apply existsb_url_In in Hdup. simpl.
      repeat split; solve [congruence | discriminate | intros; contradiction].
    + assert (Hfresh : ~ In url (map Source.url (sources st)))
        by (rewrite <- existsb_url_In, Hdup; discriminate).
      simpl.
      repeat split; solve [congruence | discriminate | intros; contradiction].
  - simpl. repeat split; solve [congruence | intros; congruence].
Qed.

Lemma add_source_outcomes_witness :
  let st := started (scripted (fun _ => Rejected fetch_failed) (Rejected fetch_failed)) in
  let st1 := snd (add_source "https://github.com/a/b" st) in
  fst (add_source "https://gitlab.com/a/b" st) = inl (JsError.Error "Invalid GitHub URL")
  /\ fst (add_source "https://github.com/a/b" st) = inr true
  /\ fst (add_source "https://github.com/a/b" st1)
     = inl (JsError.Error "Source already exists")
  /\ snd (add_source "https://github.com/a/b" st1) = st1.
Proof.
  intros st st1.
  split; [|split; [|split]].
  - apply (proj1 (add_source_outcomes "https://gitlab.com/a/b" st)). reflexivity.
  - apply (proj1 (proj2 (proj2 (add_source_outcomes "https://github.com/a/b" st)))).
    + discriminate.
    + intros [].
  - apply (proj1 (proj2 (add_source_outcomes "https://github.com/a/b" st1))).
    + discriminate.
    + left. reflexivity.
  - apply (proj2 (proj2 (proj2 (add_source_outcomes "https://github.com/a/b" st1)))
             (JsError.Error "Source already exists")).
    reflexivity.
Defined.

(* ===================================================================== *)
(** ** Transitions without a popup *)
(* ===================================================================== *)

(** C10.  When the image request fails or its answer carries no image
    URL, [getRandomGif] does not throw and returns an empty URL.  When
    that happens to the one request the tracker makes for a started or a
    finished run (the request with the tag of that transition), the
    transition is handled with no popup at all, while the notification
    was invoked once, with that tag, and the record of the run is
    stored. *)
Theorem popup_skipped_record_kept :
  (forall tag st,
      image_url (giphy_random (world st) (requests st) (apiKey st) tag) = "" ->
      exists g st', getRandomGif tag st = (inr g, st') /\ GifData.url g = "")
  /\ (forall sourceKey st P R tag,
      workflowStates st !! sourceKey = Some P ->
      (run_started P R /\ tag = started_tag)
      \/ (run_finished P R /\ tag = finished_tag R) ->
      image_url (giphy_random (world st) (requests st) (apiKey st) tag) = "" ->
      let st' := snd (track sourceKey R st) in
      fst (track sourceKey R st) = inr tt
      /\ notifications (events_since st st') = [tag]
      /\ popups (events_since st st') = []
      /\ tracks st' sourceKey R).
Proof.
  split.
  - intros tag st Hnone.
    destruct (getRandomGif_spec tag st) as (g & st' & Hrun & Hurl & _).
    exists g, st'. split; [assumption | congruence].
  - intros sourceKey st P R tag Hprev Hcase Hnone.
    destruct (track_notifies sourceKey R P st tag Hprev Hcase)
      as (g & Hok & Hurl & Htracks & _ & _ & Hn & Hp).
    rewrite Hnone in Hurl. rewrite Hurl in Hp. cbv zeta.
    rewrite Hn, Hp. auto.
Qed.

Lemma popup_skipped_record_kept_witness :
  let P := {| WorkflowState.latestRunId := 5; WorkflowState.status := "in_progress";
              WorkflowState.conclusion := None;
              WorkflowState.notifiedStart := false |} in
  let R := {| Run.id := 6; Run.status := "in_progress"; Run.conclusion := None |} in
  let w := {| github_runs := fun _ _ _ => http 200 (Some [R]);
              github_head := fun _ => http 200 tt;
              giphy_random := fun _ _ tag =>
                                if String.eqb tag "lets get started"
                                then Rejected fetch_failed
                                else http 200 (Some (Some whale_gif));
              write_file := fun _ => None;
              date_now := "2024-01-01T00:00:00.000Z" |} in
  let st := set_workflowStates {["a/b" := P]} (started w) in
  let st' := snd (track "a/b" R st) in
  notifications (events_since st st') = ["lets get started"]
  /\ popups (events_since st st') = [] /\ tracks st' "a/b" R.
Proof.
  intros P R w st st'.
  destruct (proj2 popup_skipped_record_kept "a/b" st P R started_tag eq_refl)
    as (_ & Hn & Hp & Htracks).
  - left. repeat split; discriminate.
  - reflexivity.
  - repeat split; assumption.
Defined.

(* ===================================================================== *)
(** ** A whole pass, and the invariant of the state map *)
(* ===================================================================== *)

(** Two passes over one source: the first stores the run seen in
    progress, the second sees it completed and shows the success popup. *)
Example two_passes :
  let running := {| Run.id := 7; Run.status := "in_progress"; Run.conclusion := None |} in
  let done := {| Run.id := 7; Run.status := "completed";
                 Run.conclusion := Some "success" |} in
  let w := scripted (fun n => match n with
                              | 1%nat => http 200 (Some [running])
                              | _ => http 200 (Some [done])
                              end) (http 200 (Some (Some whale_gif))) in
  let st := set_sources [{| Source.url := "https://github.com/a/b";
                            Source.added := "2024-01-01T00:00:00.000Z" |}]
              (started w) in
  let st1 := snd (checkWorkflows st) in
  let st2 := snd (checkWorkflows st1) in
  trace st1 = [Fetch HeadGitHub; Fetch (GetRuns "a" "b")]
  /\ events_since st1 st2
     = [Fetch HeadGitHub; Fetch (GetRuns "a" "b"); Fetch (GetGif "KEY" "success");
        GifWindow {| GifData.url := "https://media.giphy.com/whale.gif";
                     GifData.width := 480; GifData.height := 270 |}]
  /\ WorkflowState.status <$> workflowStates st2 !! "a/b" = Some "completed".
Proof. repeat split. Qed.

(** The tracker never throws, keeps the sources, and writes at most the
    record of the repo it was called for. *)
Lemma track_frame sourceKey R st :
  let st' := snd (track sourceKey R st) in
  fst (track sourceKey R st) = inr tt
  /\ sources st' = sources st
  /\ (workflowStates st' = workflowStates st
      \/ exists record, workflowStates st' = <[sourceKey := record]> (workflowStates st)).
Proof.
  destruct (workflowStates st !! sourceKey) as [P|] eqn:Hprev.
  - destruct (decide (Run.id R = WorkflowState.latestRunId P)) as [Hid|Hid];
      destruct (decide (Run.status R = "completed")) as [Hdone|Hdone].
    + destruct (decide (WorkflowState.status P = "completed")) as [Hp|Hp].
      * assert (Hrun : track sourceKey R st = (inr tt, st)).
        { unfold track. unfold bind at 1, gets. rewrite Hprev.
          apply Z.eqb_eq in Hid. rewrite Hid, Hp. reflexivity. }
        rewrite Hrun. simpl. auto.
      * rewrite (track_finished _ _ _ _ Hprev) by (repeat split; auto).
        edestruct notify_run as (g' & st' & -> & _ & Hw & Hs & _).
        simpl. repeat split; eauto.
    + assert (Hrun : track sourceKey R st = (inr tt, st)).
      { unfold track. unfold bind at 1, gets. rewrite Hprev.
        apply Z.eqb_eq in Hid. rewrite Hid.
        apply String.eqb_neq in Hdone. rewrite Hdone, andb_false_r. reflexivity. }
      rewrite Hrun. simpl. auto.
    + rewrite (track_superseded_completed _ _ _ _ Hprev Hid Hdone). simpl. auto.
    + rewrite (track_started _ _ _ _ Hprev) by (split; auto).
      edestruct notify_run as (g' & st' & -> & _ & Hw & Hs & _).
      simpl. repeat split; eauto.
  - rewrite track_first_sight by assumption. simpl. repeat split; eauto.
Qed.

(** The loop body never throws, keeps the sources, and writes at most the
    record of the repo of its source. *)
Lemma check_source_frame source st :
  let st' := snd (check_source source st) in
  fst (check_source source st) = inr tt
  /\ sources st' = sources st
  /\ (workflowStates st' = workflowStates st
      \/ exists repoInfo record,
           extractRepoInfo (Source.url source) = Some repoInfo
           /\ workflowStates st'
              = <[sourceKey_of repoInfo := record]> (workflowStates st)).
Proof.
  destruct (extractRepoInfo (Source.url source)) as [repoInfo|] eqn:Hinfo.
  - rewrite (check_source_step _ _ _ Hinfo).
    destruct (fetch_loop_returns (owner repoInfo) (repo repoInfo) 3 3 1 st)
      as [runs Hruns].
    pose proof (fetch_loop_silent (owner repoInfo) (repo repoInfo) 3 3 1 st)
      as (Hs & Hw & _).
    fold (fetchWorkflowRuns (owner repoInfo) (repo repoInfo) 3) in Hruns, Hs, Hw.
    destruct (fetchWorkflowRuns (owner repoInfo) (repo repoInfo) 3 st) as [res st1].
    simpl in Hruns, Hs, Hw. subst res.
    destruct runs as [|latestRun runs]; [simpl; auto|].
    destruct (track_frame (sourceKey_of repoInfo) latestRun st1)
      as (Hok & Hs' & Hw').
    repeat split; [assumption | congruence |].
    destruct Hw' as [Hsame | [record Hset]]; [left; congruence|].
    right. exists repoInfo, record. split; [reflexivity | congruence].
  - unfold check_source. rewrite Hinfo. simpl. auto.
Qed.

Lemma for_each_check_sources l :
  forall st,
    (forall source, In source l -> In source (sources st)) ->
    tracked_have_sources st ->
    let st' := snd (for_each l check_source st) in
    fst (for_each l check_source st) = inr tt
    /\ sources st' = sources st /\ tracked_have_sources st'.
Proof.
  induction l as [|source l IH]; intros st Hsub Hinv; [simpl; auto|].
  cbn [for_each]. unfold bind.
  destruct (check_source_frame source st) as (Hok & Hs & Hw).
  destruct (check_source source st) as [res st1]. simpl in Hok, Hs, Hw. subst res.
  destruct (IH st1) as (Hok' & Hs' & Hinv').
  - intros x Hx. rewrite Hs. apply Hsub. now right.
  - intros key Hkey. unfold tracked_have_sources in Hinv. rewrite Hs.
    destruct Hw as [Hsame | (repoInfo & record & Hinfo & Hset)].
    + apply Hinv. now rewrite <- Hsame.
    + destruct (decide (sourceKey_of repoInfo = key)) as [<-|Hne].
      * exists source, repoInfo. repeat split; [apply Hsub; now left | assumption].
      * apply Hinv. now rewrite Hset, lookup_insert_ne in Hkey.
  - repeat split; [assumption | congruence | assumption].
Qed.

Lemma isNetworkAvailable_run st :
  exists available,
    isNetworkAvailable st
    = (inr available, count_request (log_event (Fetch HeadGitHub) st)).
Proof.
  unfold isNetworkAvailable, try_catch. unfold bind at 1. rewrite fetch_run.
  destruct (github_head (world st) (requests st)); eexists; reflexivity.
Qed.

Lemma checkWorkflows_run st :
  exists available,
    checkWorkflows st
    = let st1 := count_request (log_event (Fetch HeadGitHub) st) in
      if available : bool then for_each (sources st) check_source st1
      else (inr tt, log_event (Console Log ["Network unavailable, skipping workflow check"])
                      st1).
Proof.
  unfold checkWorkflows. unfold bind at 1.
  destruct (isNetworkAvailable_run st) as [available ->].
  exists available. now destruct available.
Qed.

Lemma In_delete {A} (x y : A) (l : list A) :
  forall i, l !! i = Some y -> x <> y -> In x l -> In x (delete i l).
Proof.
  induction l as [|a l IH]; intros i Hat Hne Hin; [contradiction|].
  destruct i as [|i]; simpl in *.
  - injection Hat as ->. destruct Hin as [->|Hin]; [contradiction|assumption].
  - destruct Hin as [->|Hin]; [now left | right; now apply (IH i)].
Qed.

(** Over sources and answers of the shapes the model gives them, a pass
    returns normally, and a pass, an added source and a removed source
    all keep every record attached to a stored source. *)
Lemma tracked_repos_have_sources st :
  tracked_have_sources st ->
  (fst (checkWorkflows st) = inr tt /\ tracked_have_sources (snd (checkWorkflows st)))
  /\ (forall url, tracked_have_sources (snd (add_source url st)))
  /\ (forall index, tracked_have_sources (snd (remove_source index st))).
Proof.
  intros Hinv. split; [|split].
  - destruct (checkWorkflows_run st) as [available ->].
    destruct available.
    + destruct (for_each_check_sources (sources st)
                  (count_request (log_event (Fetch HeadGitHub) st)))
        as (Hok & _ & Hinv'); auto.
    + split; [reflexivity|exact Hinv].
  - intros url. destruct (add_source_run url st) as (level & line & ->).
    destruct (extractRepoInfo url); [|exact Hinv].
    destruct (existsb _ (sources st)); [exact Hinv|].
    intros key Hkey. destruct (Hinv key Hkey) as (source & repoInfo & Hin & Hrest).
    exists source, repoInfo. split; [|exact Hrest].
    simpl. apply in_or_app. now left.
  - intros index.
    destruct (decide (0 <= index < Z.of_nat (length (sources st)))) as [Hrange|Hout].
    + destruct (lookup_lt_is_Some_2 (sources st) (Z.to_nat index)) as [removed Hat];
        [lia|].
      destruct (remove_source_run (Z.to_nat index) removed st Hat)
        as (st' & Hrun & Hs & Hw).
      rewrite Z2Nat.id in Hrun by lia. rewrite Hrun. simpl.
      intros key Hkey.
      assert (Hbefore : is_Some (workflowStates st !! key)).
      { rewrite Hw in Hkey. destruct (extractRepoInfo (Source.url removed)); [|exact Hkey].
        destruct (decide (sourceKey_of r = key)) as [<-|Hne].
        - rewrite lookup_delete_eq in Hkey. now destruct Hkey.
        - now rewrite lookup_delete_ne in Hkey. }
      destruct (Hinv key Hbefore) as (source & repoInfo & Hin & Hinfo & Hkeyeq).
      exists source, repoInfo. repeat split; try assumption.
      rewrite Hs. apply (In_delete source removed); [assumption| |assumption].
      intros ->. rewrite Hw, Hinfo, Hkeyeq, lookup_delete_eq in Hkey.
      now destruct Hkey.
    + assert (Hrun : remove_source index st = (inr true, st)).
      { unfold remove_source. unfold bind at 1, gets.
        destruct ((0 <=? index) && (index <? Z.of_nat (length (sources st)))) eqn:Hin;
          [|reflexivity].
        apply andb_prop in Hin as [H1%Z.leb_le H2%Z.ltb_lt]. lia. }
      now rewrite Hrun.
Qed.

(* ===================================================================== *)
(** * Further properties *)
(* ===================================================================== *)

(** ** What the resolver returns *)

Section ResolverResults.

Import JsString.

Lemma take_segment_inv s :
  forall seg rest,
    take_segment s = (seg, rest) ->
    s = seg +:+ rest /\ lacks slash seg = true /\ segment_stop rest = true.
Proof.
  induction s as [|c s IH]; simpl; intros seg rest H.
  - injection H as <- <-. auto.
  - destruct (Ascii.eqb c slash) eqn:Hc.
    + injection H as <- <-. simpl. auto.
    + destruct (take_segment s) as [seg' rest'].
      injection H as <- <-.
      destruct (IH seg' rest' eq_refl) as (-> & Hseg & Hrest).
      simpl. rewrite Hc. auto.
Qed.

Lemma match_here_inv u info :
  match_here u = Some info ->
  exists post,
    u = "github.com/" +:+ owner info +:+ "/" +:+ repo info +:+ post
    /\ segment (owner info) = true /\ segment (repo info) = true
    /\ segment_stop post = true.
Proof.
  unfold match_here.
  destruct (strip_prefix "github.com/" u) as [after_host|] eqn:Hhost; [|discriminate].
  apply strip_prefix_inv in Hhost. subst u.
  destruct (take_segment after_host) as [o rest] eqn:Ho.
  apply take_segment_inv in Ho as (-> & Ho & _).
  destruct o as [|co o]; [discriminate|].
  destruct rest as [|c after_owner]; [discriminate|].
  destruct (Ascii.eqb_spec c slash) as [->|]; [|discriminate].
  destruct (take_segment after_owner) as [r post] eqn:Hr.
  apply take_segment_inv in Hr as (-> & Hr & Hpost).
  destruct r as [|cr r]; [discriminate|].
  intros [= <-]. exists post. cbn [owner repo]. unfold segment.
  rewrite Ho, Hr. repeat split; try reflexivity. assumption.
Qed.

Lemma regex_search_inv s :
  forall info,
    regex_search s = Some info ->
    exists pre u, s = pre +:+ u /\ match_here u = Some info.
Proof.
  induction s as [|c s IH]; intros info; cbn [regex_search].
  - destruct (match_here "") eqn:H; [|discriminate].
    intros [= ->]. now exists "", "".
  - destruct (match_here (String c s)) as [found|] eqn:H.
    + intros [= ->]. now exists "", (String c s).
    + intros Hs. destruct (IH info Hs) as (pre & u & -> & Hu).
      now exists (String c pre), u.
Qed.

(** Whatever [extractRepoInfo] returns is cut out of the identifier: the
    identifier holds [github.com/<owner>/<repo>], and both parts are
    non-empty and free of ['/']. *)
Lemma extractRepoInfo_inv s info :
  extractRepoInfo s = Some info ->
  segment (owner info) = true /\ segment (repo info) = true
  /\ exists pre post,
      s = pre +:+ "github.com/" +:+ owner info +:+ "/" +:+ repo info +:+ post
      /\ segment_stop post = true.
Proof.
  rewrite extractRepoInfo_search. intros Hs.
  destruct (regex_search_inv s info Hs) as (pre & u & -> & Hu).
  destruct (match_here_inv u info Hu) as (post & -> & Ho & Hr & Hpost).
  repeat split; try assumption. now exists pre, post.
Qed.

Lemma segment_lacks s : segment s = true -> lacks slash s = true.
Proof. unfold segment. now intros [_ H]%andb_prop. Qed.

(** The key of a repo with a slash-free owner tells owner and repo. *)
Lemma sourceKey_of_inj i1 i2 :
  lacks slash (owner i1) = true -> lacks slash (owner i2) = true ->
  sourceKey_of i1 = sourceKey_of i2 -> i1 = i2.
Proof.
  destruct i1 as [o1 r1], i2 as [o2 r2]. unfold sourceKey_of. cbn [owner repo].
  intros H1 H2 Hkey.
  apply (f_equal take_segment) in Hkey.
  change ("/" +:+ r1) with (String slash r1) in Hkey.
  change ("/" +:+ r2) with (String slash r2) in Hkey.
  rewrite !take_segment_append in Hkey by (try assumption; reflexivity).
  now injection Hkey as -> ->.
Qed.

End ResolverResults.

(** X1.  A result of [extractRepoInfo] is read off the identifier: the
    identifier contains [github.com/<owner>/<repo>] followed by the end or
    a ['/'], and owner and repo are non-empty and hold no ['/']. *)
Theorem extractRepoInfo_sound s info :
  extractRepoInfo s = Some info ->
  segment (owner info) = true /\ segment (repo info) = true
  /\ exists pre post,
      s = pre +:+ "github.com/" +:+ owner info +:+ "/" +:+ repo info +:+ post
      /\ segment_stop post = true.
Proof. apply extractRepoInfo_inv. Qed.

Lemma extractRepoInfo_sound_witness :
  segment "facebook" = true /\ segment "react" = true
  /\ exists pre post,
      "https://github.com/facebook/react/tree/main"
      = pre +:+ "github.com/" +:+ "facebook" +:+ "/" +:+ "react" +:+ post
      /\ segment_stop post = true.
Proof.
  apply (extractRepoInfo_sound "https://github.com/facebook/react/tree/main"
           {| owner := "facebook"; repo := "react" |}).
  reflexivity.
Defined.

(** X2.  Two identifiers that resolve to the same state key resolve to the
    same owner and repo: no two repos share a record. *)
Theorem sourceKey_identifies_repo s1 s2 i1 i2 :
  extractRepoInfo s1 = Some i1 -> extractRepoInfo s2 = Some i2 ->
  sourceKey_of i1 = sourceKey_of i2 -> i1 = i2.
Proof.
  intros H1 H2.
  apply extractRepoInfo_inv in H1 as (Ho1 & _).
  apply extractRepoInfo_inv in H2 as (Ho2 & _).
  apply sourceKey_of_inj; now apply segment_lacks.
Qed.

Lemma sourceKey_identifies_repo_witness :
  {| owner := "a"; repo := "b" |} = {| owner := "a"; repo := "b" |}.
Proof.
  apply (sourceKey_identifies_repo "https://github.com/a/b" "github.com/a/b/pulls");
    reflexivity.
Defined.

(** X3.  The state key leads back to the repo: for a resolved repo,
    [https://github.com/<key>] resolves to the same owner and repo. *)
Theorem sourceKey_resolves_back s info :
  extractRepoInfo s = Some info ->
  extractRepoInfo ("https://github.com/" +:+ sourceKey_of info) = Some info.
Proof.
  intros H. apply extractRepoInfo_inv in H as (Ho & Hr & _).
  rewrite extractRepoInfo_search.
  change ("https://github.com/" +:+ sourceKey_of info)
    with ("https" +:+ "://" +:+ "github.com/" +:+ sourceKey_of info).
  rewrite regex_search_skips_scheme by reflexivity.
  unfold sourceKey_of.
  rewrite <- (append_empty (repo info)) at 1.
  rewrite regex_search_repo by (try assumption; reflexivity).
  now destruct info.
Qed.

Lemma sourceKey_resolves_back_witness :
  extractRepoInfo ("https://github.com/"
                   +:+ sourceKey_of {| owner := "facebook"; repo := "react" |})
  = Some {| owner := "facebook"; repo := "react" |}.
Proof.
  apply (sourceKey_resolves_back "github.com/facebook/react/tree/main").
  reflexivity.
Defined.

(* ===================================================================== *)
(** ** The course of a call of the status client *)
(* ===================================================================== *)

(** The attempts an answer of the runs endpoint is not retried after. *)
Lemma attempts_repeat_cons (o r : string) n :
  (o, r) :: repeat (o, r) n = repeat (o, r) (S n).
Proof. reflexivity. Qed.

(** [k] network errors in a row, none of them at the last attempt allowed:
    the loop waits after each and stands at attempt [attempt + k]. *)
Lemma fetch_loop_skip o r retries k :
  forall attempt remaining st,
    (attempt + k <= retries)%nat ->
    (forall i, (i < k)%nat ->
       exists e, github_runs (world st) (requests st + i) o r = Rejected e
                 /\ isNetworkError e = true) ->
    exists st',
      fetch_loop o r retries (k + remaining) attempt st
      = fetch_loop o r retries remaining (attempt + k) st'
      /\ world st' = world st /\ requests st' = (requests st + k)%nat
      /\ exists evs, trace st' = trace st ++ evs
                     /\ attempts evs = repeat (o, r) k
                     /\ sleeps evs = map backoff_delay (seq attempt k).
Proof.
  induction k as [|k IH]; intros attempt remaining st Hle Hfail.
  - exists st. rewrite !Nat.add_0_r. repeat split.
    exists []. now rewrite app_nil_r.
  - destruct (Hfail 0%nat) as (e & Hanswer & Hkind); [lia|].
    rewrite Nat.add_0_r in Hanswer.
    cbn [Nat.add]. rewrite fetch_loop_step, fetch_attempt_run, Hanswer. cbv zeta.
    destruct (fetch_recover_run o r retries attempt e
                (count_request (log_event (Fetch (GetRuns o r)) st)))
      as [line ->].
    assert (Hnotlast : Nat.eqb attempt retries = false)
      by (apply Nat.eqb_neq; lia).
    rewrite Hnotlast, Hkind.
    destruct (IH (S attempt) remaining
                (log_event (Sleep (backoff_delay attempt))
                   (log_event (Console Warn line)
                      (count_request (log_event (Fetch (GetRuns o r)) st)))))
      as (st' & Hrun & Hw & Hreq & evs & Ht & Hat & Hsl).
    + lia.
    + intros i Hi. destruct (Hfail (S i)) as (e' & He' & Hk'); [lia|].
      exists e'. split; [|assumption]. simpl.
      now replace (S (requests st + i)) with (requests st + S i)%nat by lia.
    + exists st'. rewrite Hrun.
      replace (S attempt + k)%nat with (attempt + S k)%nat by lia.
      split; [reflexivity|]. split; [exact Hw|].
      split; [simpl in Hreq; lia|].
      exists (Fetch (GetRuns o r) :: Console Warn line
              :: Sleep (backoff_delay attempt) :: evs).
      split; [|split].
      * rewrite Ht. simpl. now rewrite <- !app_assoc.
      * simpl. now rewrite Hat.
      * simpl. now rewrite Hsl.
Qed.

(** X4.  When the first [k] answers are network errors, [k] below the
    attempt cap, and the next answer is ok with a parsed body, the call
    returns the runs of that body ([[]] when it has none), after [k + 1]
    requests and the waits of attempts 1 to [k]. *)
Theorem retries_until_answer o r retries k st resp data :
  (k < retries)%nat ->
  (forall i, (i < k)%nat ->
     exists e, github_runs (world st) (requests st + i) o r = Rejected e
               /\ isNetworkError e = true) ->
  github_runs (world st) (requests st + k) o r = Resolved resp ->
  ok resp = true -> json resp = inr data ->
  let result := fetchWorkflowRuns o r retries st in
  fst result = inr (default [] data)
  /\ attempts (events_since st (snd result)) = repeat (o, r) (S k)
  /\ sleeps (events_since st (snd result)) = map backoff_delay (seq 1 k).
Proof.
  intros Hk Hfail Hanswer Hok Hjson. cbv zeta. unfold fetchWorkflowRuns.
  replace (fetch_loop o r retries retries 1 st)
    with (fetch_loop o r retries (k + S (retries - S k)) 1 st)
    by (f_equal; lia).
  destruct (fetch_loop_skip o r retries k 1 (S (retries - S k)) st)
    as (st' & -> & Hw & Hreq & evs & Ht & Hat & Hsl); [lia|assumption|].
  rewrite fetch_loop_step, fetch_attempt_run, Hw, Hreq, Hanswer. cbv zeta.
  rewrite Hok, Hjson. cbn [fst snd].
  split; [reflexivity|].
  rewrite (events_since_app st _ (evs ++ [Fetch (GetRuns o r)]))
    by (simpl; now rewrite Ht, <- app_assoc).
  rewrite attempts_app, sleeps_app, Hat, Hsl. simpl.
  split; [|now rewrite app_nil_r].
  clear. induction k; simpl; congruence.
Qed.

Lemma retries_until_answer_witness :
  let latest := {| Run.id := 7; Run.status := "queued"; Run.conclusion := None |} in
  let w := scripted (fun n => match n with
                              | 0%nat | 1%nat => Rejected fetch_failed
                              | _ => http 200 (Some [latest])
                              end) (Rejected fetch_failed) in
  let result := fetchWorkflowRuns "a" "b" 3 (started w) in
  fst result = inr [latest]
  /\ attempts (events_since (started w) (snd result)) = repeat ("a", "b") 3
  /\ sleeps (events_since (started w) (snd result)) = [1000; 2000].
Proof.
  intros latest w.
  apply (retries_until_answer "a" "b" 3 2 (started w)
           {| ok := true; status := 200; json := inr (Some [latest]) |}
           (Some [latest])).
  - lia.
  - intros i Hi. exists fetch_failed.
    destruct i as [|[|i]]; [split; reflexivity | split; reflexivity | lia].
  - reflexivity.
  - reflexivity.
  - reflexivity.
Defined.

(** X5.  When every one of the allowed attempts meets a network error, the
    call returns the empty list after [retries] requests; it has waited
    after each attempt but the last. *)
Theorem retries_exhausted o r retries st :
  (1 <= retries)%nat ->
  (forall i, (i < retries)%nat ->
     exists e, github_runs (world st) (requests st + i) o r = Rejected e
               /\ isNetworkError e = true) ->
  let result := fetchWorkflowRuns o r retries st in
  fst result = inr []
  /\ attempts (events_since st (snd result)) = repeat (o, r) retries
  /\ sleeps (events_since st (snd result))
     = map backoff_delay (seq 1 (retries - 1)).
Proof.
  intros Hretries Hfail. cbv zeta. unfold fetchWorkflowRuns.
  destruct retries as [|k]; [lia|].
  replace (fetch_loop o r (S k) (S k) 1 st)
    with (fetch_loop o r (S k) (k + 1) 1 st) by (f_equal; lia).
  destruct (fetch_loop_skip o r (S k) k 1 1 st)
    as (st' & -> & Hw & Hreq & evs & Ht & Hat & Hsl);
    [lia | intros i Hi; apply Hfail; lia |].
  destruct (Hfail k) as (e & Hanswer & Hkind); [lia|].
  rewrite fetch_loop_step, fetch_attempt_run, Hw, Hreq, Hanswer. cbv zeta.
  destruct (fetch_recover_run o r (S k) (1 + k) e
              (count_request (log_event (Fetch (GetRuns o r)) st')))
    as [line ->].
  rewrite Nat.eqb_refl. cbn [fst snd].
  split; [reflexivity|].
  rewrite (events_since_app st _ (evs ++ [Fetch (GetRuns o r); Console Error line]))
    by (simpl; now rewrite Ht, <- !app_assoc).
  rewrite attempts_app, sleeps_app, Hat, Hsl. simpl.
  rewrite Nat.sub_0_r, app_nil_r. split; [|reflexivity].
  clear. induction k; simpl; congruence.
Qed.

Lemma retries_exhausted_witness :
  let w := scripted (fun _ => Rejected fetch_failed) (Rejected fetch_failed) in
  let result := fetchWorkflowRuns "a" "b" 3 (started w) in
  fst result = inr []
  /\ attempts (events_since (started w) (snd result)) = repeat ("a", "b") 3
  /\ sleeps (events_since (started w) (snd result)) = [1000; 2000].
Proof.
  intros w.
  apply (retries_exhausted "a" "b" 3 (started w)).
  - lia.
  - intros i _. exists fetch_failed. split; reflexivity.
Defined.

(** Whatever the answers are, the loop at attempt [attempt] with
    [remaining] iterations to go makes some number of requests and has
    waited after each but the last. *)
Lemma fetch_loop_shape o r retries remaining :
  forall attempt st,
    (attempt + remaining = S retries)%nat ->
    exists n evs,
      (n <= remaining)%nat /\ ((1 <= remaining)%nat -> (1 <= n)%nat)
      /\ trace (snd (fetch_loop o r retries remaining attempt st)) = trace st ++ evs
      /\ attempts evs = repeat (o, r) n
      /\ sleeps evs = map backoff_delay (seq attempt (n - 1)).
Proof.
  induction remaining as [|remaining IH]; intros attempt st Hinv.
  - exists 0%nat, []. simpl. rewrite app_nil_r. repeat split; lia.
  - rewrite fetch_loop_step.
    destruct (fetch_attempt_frame o r st) as (_ & _ & _ & _ & _ & cevs & Ht & Hc).
    apply console_quiet in Hc as (_ & _ & Hsl & Hat).
    destruct (fetch_attempt o r st) as [[e|runs] st1]; simpl in Ht.
    + destruct (fetch_recover_run o r retries attempt e st1) as [line ->].
      destruct (Nat.eqb_spec attempt retries) as [Hlast|Hlast];
        [|destruct (isNetworkError e)].
      * exists 1%nat, (Fetch (GetRuns o r) :: cevs ++ [Console Error line]).
        simpl. rewrite Ht, <- app_assoc, attempts_app, sleeps_app, Hat, Hsl.
        repeat split; lia.
      * destruct (IH (S attempt)
                    (log_event (Sleep (backoff_delay attempt))
                       (log_event (Console Warn line) st1)))
          as (n & evs & Hn & Hpos & Ht' & Hat' & Hsl'); [lia|].
        assert (1 <= n)%nat by (apply Hpos; lia).
        exists (S n), (Fetch (GetRuns o r) :: cevs
                       ++ [Console Warn line; Sleep (backoff_delay attempt)] ++ evs).
        split; [lia|]. split; [lia|]. split; [|split].
        -- rewrite Ht'. simpl. rewrite Ht, <- !app_assoc. reflexivity.
        -- simpl. rewrite attempts_app, Hat. simpl. now rewrite Hat'.
        -- simpl. rewrite sleeps_app, Hsl. simpl. rewrite Hsl'.
           replace (n - 0)%nat with (S (n - 1)) by lia. reflexivity.
      * exists 1%nat, (Fetch (GetRuns o r) :: cevs ++ [Console Error line]).
        simpl. rewrite Ht, <- app_assoc, attempts_app, sleeps_app, Hat, Hsl.
        repeat split; lia.
    + exists 1%nat, (Fetch (GetRuns o r) :: cevs).
      simpl. rewrite Ht, Hat, Hsl. repeat split; lia.
Qed.


(** X7.  From attempt 1 on, the delay lies between 1000 and 30000
    milliseconds and never shrinks from one attempt to the next. *)
Theorem backoff_delay_bounds n :
  (1 <= n)%nat ->
  1000 <= backoff_delay n <= 30000
  /\ backoff_delay n <= backoff_delay (S n).
Proof.
  intros Hn. unfold backoff_delay.
  assert (H1 : 1 <= 2 ^ (Z.of_nat n - 1))
    by (apply (Z.pow_le_mono_r 2 0); lia).
  assert (H2 : 2 ^ (Z.of_nat n - 1) <= 2 ^ (Z.of_nat (S n) - 1))
    by (apply Z.pow_le_mono_r; lia).
  lia.
Qed.

Lemma backoff_delay_bounds_witness :
  1000 <= backoff_delay 5 <= 30000 /\ backoff_delay 5 <= backoff_delay 6.
Proof. apply (backoff_delay_bounds 5). lia. Defined.

(* ===================================================================== *)
(** ** The tracker, pass after pass *)
(* ===================================================================== *)

Lemma writes_app l k : writes (l ++ k) = writes l ++ writes k.
Proof. apply flat_map_app. Qed.

Lemma console_no_writes evs : forallb is_console evs = true -> writes evs = [].
Proof.
  induction evs as [|ev evs IH]; simpl; [auto|].
  intros [Hev Hevs]%andb_prop. destruct ev; try discriminate. now apply IH.
Qed.

(** The record already is that of the run seen: nothing to do. *)
Lemma track_same_record sourceKey R record st :
  workflowStates st !! sourceKey = Some record ->
  WorkflowState.latestRunId record = Run.id R ->
  WorkflowState.status record = Run.status R ->
  track sourceKey R st = (inr tt, st).
Proof.
  intros Hprev Hid Hstatus. unfold track. unfold bind at 1, gets.
  rewrite Hprev, Hid, Z.eqb_refl, Hstatus. simpl.
  now destruct (String.eqb (Run.status R) "completed").
Qed.

(** The tracked run was recorded as completed: nothing to do. *)
Lemma track_completed_record sourceKey R P st :
  workflowStates st !! sourceKey = Some P ->
  WorkflowState.status P = "completed" ->
  Run.id R = WorkflowState.latestRunId P ->
  track sourceKey R st = (inr tt, st).
Proof.
  intros Hprev Hdone Hid. unfold track. unfold bind at 1, gets.
  now rewrite Hprev, Hid, Z.eqb_refl, Hdone.
Qed.

(** The tracked run is seen again and has not completed: nothing to do. *)
Lemma track_still_running sourceKey R P st :
  workflowStates st !! sourceKey = Some P ->
  Run.id R = WorkflowState.latestRunId P ->
  Run.status R <> "completed" ->
  track sourceKey R st = (inr tt, st).
Proof.
  intros Hprev Hid Hrunning. unfold track. unfold bind at 1, gets.
  rewrite Hprev, Hid, Z.eqb_refl. apply String.eqb_neq in Hrunning.
  now rewrite Hrunning, andb_false_r.
Qed.

(** A notification in full: the record is stored, one image is asked for,
    at most one popup is shown, and nothing else happens. *)
Lemma notify_outcome tag sourceKey record st :
  exists st',
    (do gifData <- getRandomGif tag in
     do _ <- (if JsString.truthy (GifData.url gifData)
              then createGifWindow gifData else ret tt) in
     states_set sourceKey record) st = (inr tt, st')
    /\ workflowStates st' = <[sourceKey := record]> (workflowStates st)
    /\ sources st' = sources st
    /\ exists evs, trace st' = trace st ++ evs
                   /\ notifications evs = [tag]
                   /\ (length (popups evs) <= 1)%nat
                   /\ attempts evs = [] /\ sleeps evs = [] /\ writes evs = [].
Proof.
  destruct (getRandomGif_spec tag st)
    as (g & st1 & Hrun & _ & Hs & Hw & _ & _ & _ & cevs & Ht & Hc).
  pose proof (console_no_writes _ Hc) as Hwr.
  apply console_quiet in Hc as (Hn & Hp & Hsl & Hat).
  unfold bind at 1. rewrite Hrun.
  destruct (JsString.truthy (GifData.url g)); run_step;
    eexists; (split; [reflexivity|]); simpl;
    (split; [congruence|]); (split; [congruence|]).
  - exists (Fetch (GetGif (apiKey st) tag) :: cevs ++ [GifWindow g]).
    rewrite Ht, <- app_assoc. simpl.
    rewrite notifications_app, popups_app, attempts_app, sleeps_app, writes_app.
    rewrite Hn, Hp, Hsl, Hat, Hwr. simpl. repeat split; lia.
  - exists (Fetch (GetGif (apiKey st) tag) :: cevs).
    rewrite Ht. simpl. rewrite Hn, Hp, Hsl, Hat, Hwr. simpl. repeat split; lia.
Qed.

(** All that one call of the tracker can do. *)
Lemma track_outcome sourceKey R st :
  exists st',
    track sourceKey R st = (inr tt, st')
    /\ sources st' = sources st
    /\ (workflowStates st' = workflowStates st
        \/ exists flag,
            workflowStates st'
            = <[sourceKey := {| WorkflowState.latestRunId := Run.id R;
                                WorkflowState.status := Run.status R;
                                WorkflowState.conclusion := Run.conclusion R;
                                WorkflowState.notifiedStart := flag |}]>
                (workflowStates st))
    /\ exists evs, trace st' = trace st ++ evs
                   /\ (length (notifications evs) <= 1)%nat
                   /\ (length (popups evs) <= length (notifications evs))%nat
                   /\ attempts evs = [] /\ sleeps evs = [] /\ writes evs = [].
Proof.
  assert (Hidle : forall st0 : App,
             exists evs, trace st0 = trace st0 ++ evs
                         /\ (length (notifications evs) <= 1)%nat
                         /\ (length (popups evs) <= length (notifications evs))%nat
                         /\ attempts evs = [] /\ sleeps evs = [] /\ writes evs = [])
    by (intros st0; exists []; rewrite app_nil_r; simpl; repeat split; lia).
  destruct (workflowStates st !! sourceKey) as [P|] eqn:Hprev.
  - destruct (decide (Run.id R = WorkflowState.latestRunId P)) as [Hid|Hid];
      destruct (decide (Run.status R = "completed")) as [Hdone|Hdone].
    + destruct (decide (WorkflowState.status P = "completed")) as [Hp|Hp].
      * exists st. rewrite (track_completed_record _ _ _ _ Hprev Hp Hid). auto.
      * rewrite (track_finished _ _ _ _ Hprev) by (repeat split; auto).
        destruct (notify_outcome (finished_tag R) sourceKey
                    {| WorkflowState.latestRunId := Run.id R;
                       WorkflowState.status := Run.status R;
                       WorkflowState.conclusion := Run.conclusion R;
                       WorkflowState.notifiedStart := false |} st)
          as (st' & -> & Hw & Hs & evs & Ht & Hn & Hp' & Hrest).
        exists st'. repeat split; eauto.
        exists evs. rewrite Hn. simpl. repeat split; try apply Hrest; auto.
    + exists st. rewrite (track_still_running _ _ _ _ Hprev Hid Hdone). auto.
    + exists st. rewrite (track_superseded_completed _ _ _ _ Hprev Hid Hdone). auto.
    + rewrite (track_started _ _ _ _ Hprev) by (split; auto).
      destruct (notify_outcome started_tag sourceKey
                  {| WorkflowState.latestRunId := Run.id R;
                     WorkflowState.status := Run.status R;
                     WorkflowState.conclusion := Run.conclusion R;
                     WorkflowState.notifiedStart := true |} st)
        as (st' & -> & Hw & Hs & evs & Ht & Hn & Hp' & Hrest).
      exists st'. repeat split; eauto.
      exists evs. rewrite Hn. simpl. repeat split; try apply Hrest; auto.
  - rewrite track_first_sight by assumption. eexists. split; [reflexivity|].
    simpl. repeat split; eauto.
Qed.

(** X8.  Seeing the same latest run again changes nothing: a second call
    of the tracker with the run it was just called with returns at once,
    with no request, no popup and no write to the state map. *)
Theorem track_twice sourceKey R st :
  track sourceKey R (snd (track sourceKey R st))
  = (inr tt, snd (track sourceKey R st)).
Proof.
  destruct (workflowStates st !! sourceKey) as [P|] eqn:Hprev.
  - destruct (decide (Run.id R = WorkflowState.latestRunId P)) as [Hid|Hid];
      destruct (decide (Run.status R = "completed")) as [Hdone|Hdone].
    + destruct (decide (WorkflowState.status P = "completed")) as [Hp|Hp].
      * rewrite (track_completed_record _ _ _ _ Hprev Hp Hid). simpl.
        apply (track_completed_record _ _ _ _ Hprev Hp Hid).
      * rewrite (track_finished sourceKey R P st Hprev) by (repeat split; auto).
        edestruct notify_outcome as (st' & -> & Hw & _). simpl.
        eapply track_same_record; [rewrite Hw; apply lookup_insert_eq | |];
          reflexivity.
    + rewrite (track_still_running _ _ _ _ Hprev Hid Hdone). simpl.
      apply (track_still_running _ _ _ _ Hprev Hid Hdone).
    + rewrite (track_superseded_completed _ _ _ _ Hprev Hid Hdone). simpl.
      apply (track_superseded_completed _ _ _ _ Hprev Hid Hdone).
    + rewrite (track_started sourceKey R P st Hprev) by (split; auto).
      edestruct notify_outcome as (st' & -> & Hw & _). simpl.
      eapply track_same_record; [rewrite Hw; apply lookup_insert_eq | |];
        reflexivity.
  - rewrite (track_first_sight sourceKey R st Hprev). simpl.
    eapply track_same_record; [apply lookup_insert_eq | |]; reflexivity.
Qed.

Lemma track_pending sourceKey R st :
  exists st' evs,
    track sourceKey R st = (inr tt, st')
    /\ trace st' = trace st ++ evs
    /\ (length (notifications evs)
        + pending (Run.id R) (workflowStates st' !! sourceKey)
        <= pending (Run.id R) (workflowStates st !! sourceKey))%nat.
Proof.
  destruct (workflowStates st !! sourceKey) as [P|] eqn:Hprev.
  - destruct (decide (Run.id R = WorkflowState.latestRunId P)) as [Hid|Hid];
      destruct (decide (Run.status R = "completed")) as [Hdone|Hdone].
    + destruct (decide (WorkflowState.status P = "completed")) as [Hp|Hp].
      * exists st, []. rewrite (track_completed_record _ _ _ _ Hprev Hp Hid).
        rewrite app_nil_r, Hprev. simpl. auto.
      * rewrite (track_finished sourceKey R P st Hprev) by (repeat split; auto).
        edestruct notify_outcome as (st' & -> & Hw & _ & evs & Ht & Hn & _).
        exists st', evs. rewrite Hw, lookup_insert_eq, Hn. simpl.
        rewrite decide_True by reflexivity. rewrite decide_True by assumption.
        rewrite decide_True by congruence. rewrite decide_False by assumption.
        auto.
    + exists st, []. rewrite (track_still_running _ _ _ _ Hprev Hid Hdone).
      rewrite app_nil_r, Hprev. simpl. auto.
    + exists st, []. rewrite (track_superseded_completed _ _ _ _ Hprev Hid Hdone).
      rewrite app_nil_r, Hprev. simpl. auto.
    + rewrite (track_started sourceKey R P st Hprev) by (split; auto).
      edestruct notify_outcome as (st' & -> & Hw & _ & evs & Ht & Hn & _).
      exists st', evs. rewrite Hw, lookup_insert_eq, Hn. simpl.
      rewrite decide_True by reflexivity. rewrite decide_False by assumption.
      rewrite decide_False by congruence. auto.
  - rewrite (track_first_sight sourceKey R st Hprev).
    eexists _, []. split; [reflexivity|]. simpl.
    rewrite app_nil_r, lookup_insert_eq. simpl.
    rewrite decide_True by reflexivity. split; [reflexivity|].
    destruct (decide _); lia.
Qed.

Lemma observe_pending sourceKey x runs :
  forall st,
    Forall (fun R => Run.id R = x) runs ->
    exists evs,
      trace (observe sourceKey runs st) = trace st ++ evs
      /\ (length (notifications evs)
          <= pending x (workflowStates st !! sourceKey))%nat.
Proof.
  induction runs as [|R runs IH]; intros st Hruns.
  - exists []. simpl. rewrite app_nil_r. split; [reflexivity|lia].
  - apply Forall_cons in Hruns as [HR Hruns]. cbn [observe fold_left].
    destruct (track_pending sourceKey R st) as (st' & evs & -> & Ht & Hn).
    rewrite HR in Hn. cbn [snd].
    destruct (IH st' Hruns) as (evs' & Ht' & Hn').
    exists (evs ++ evs'). unfold observe in Ht'.
    rewrite Ht', Ht, <- app_assoc, notifications_app, length_app.
    split; [reflexivity|lia].
Qed.

(** X9.  For passes that run one after another, each to its end before
    the next starts and with no handler call in between: however many of
    them see the run with one id as the latest run of a repo, and whatever
    status each of them sees, the tracker notifies at most twice for it
    in all (a start and a completion), at most once when the run is the
    one recorded or the repo is unseen, and never again once the run is
    recorded as completed.  Passes that overlap, as the timer allows when
    a pass takes longer than its period, are not covered. *)
Theorem notifications_per_run sourceKey x runs st :
  Forall (fun R => Run.id R = x) runs ->
  let evs := events_since st (observe sourceKey runs st) in
  (length (notifications evs) <= pending x (workflowStates st !! sourceKey))%nat
  /\ (length (notifications evs) <= 2)%nat.
Proof.
  intros Hruns.
  destruct (observe_pending sourceKey x runs st Hruns) as (evs & Ht & Hn).
  cbv zeta. rewrite (events_since_app _ _ _ Ht). split; [exact Hn|].
  unfold pending in Hn.
  destruct (workflowStates st !! sourceKey); repeat destruct (decide _); lia.
Qed.

Lemma notifications_per_run_witness :
  let running := {| Run.id := 7; Run.status := "in_progress"; Run.conclusion := None |} in
  let done := {| Run.id := 7; Run.status := "completed";
                 Run.conclusion := Some "success" |} in
  let st := started (scripted (fun _ => Rejected fetch_failed)
                              (http 200 (Some (Some whale_gif)))) in
  (length (notifications
             (events_since st (observe "a/b" [running; done; running; done] st)))
   <= 1)%nat.
Proof.
  intros running done st.
  apply (proj1 (notifications_per_run "a/b" 7 [running; done; running; done] st
                  ltac:(repeat constructor))).
Defined.

(** X10.  Handling the latest run of a repo never touches the source list
    or the record of another repo; the record of its own repo is left as
    it was or becomes that of the run seen; it asks for at most one image,
    shows a popup only after asking for one, and writes no file. *)
Theorem track_touches_one_record sourceKey R st other :
  other <> sourceKey ->
  let st' := snd (track sourceKey R st) in
  sources st' = sources st
  /\ workflowStates st' !! other = workflowStates st !! other
  /\ (workflowStates st' !! sourceKey = workflowStates st !! sourceKey
      \/ tracks st' sourceKey R)
  /\ (length (notifications (events_since st st')) <= 1)%nat
  /\ (length (popups (events_since st st'))
      <= length (notifications (events_since st st')))%nat
  /\ writes (events_since st st') = [].
Proof.
  intros Hother.
  destruct (track_outcome sourceKey R st)
    as (st' & -> & Hs & Hw & evs & Ht & Hn & Hp & _ & _ & Hwr).
  simpl. rewrite (events_since_app _ _ _ Ht).
  repeat split; try assumption.
  - destruct Hw as [-> | [flag ->]]; [reflexivity|].
    now rewrite lookup_insert_ne.
  - destruct Hw as [-> | [flag Hw]]; [now left|]. right.
    eexists. rewrite Hw, lookup_insert_eq. repeat split.
Qed.

Lemma track_touches_one_record_witness :
  let P := {| WorkflowState.latestRunId := 5; WorkflowState.status := "in_progress";
              WorkflowState.conclusion := None;
              WorkflowState.notifiedStart := false |} in
  let R := {| Run.id := 6; Run.status := "in_progress"; Run.conclusion := None |} in
  let st := set_workflowStates {["a/b" := P; "c/d" := P]}
              (started (scripted (fun _ => http 200 (Some [R]))
                                 (http 200 (Some (Some whale_gif))))) in
  workflowStates (snd (track "a/b" R st)) !! "c/d" = Some P.
Proof.
  intros P R st.
  destruct (track_touches_one_record "a/b" R st "c/d") as (_ & Hother & _).
  - discriminate.
  - rewrite Hother. reflexivity.
Defined.

(* ===================================================================== *)
(** ** A pass as a whole *)
(* ===================================================================== *)

Lemma client_events_quiet evs :
  forallb is_client_event evs = true ->
  notifications evs = [] /\ popups evs = [] /\ writes evs = [].
Proof.
  induction evs as [|ev evs IH]; simpl; [auto|].
  intros [Hev Hevs]%andb_prop.
  destruct ev as [[]| | | |]; try discriminate; now apply IH.
Qed.

Lemma console_is_client evs :
  forallb is_console evs = true -> forallb is_client_event evs = true.
Proof.
  induction evs as [|ev evs IH]; simpl; [auto|].
  intros [Hev Hevs]%andb_prop. destruct ev; try discriminate. now apply IH.
Qed.

(** The status client causes no other effects than its own. *)
Lemma fetch_loop_events o r retries remaining :
  forall attempt st,
    exists evs,
      trace (snd (fetch_loop o r retries remaining attempt st)) = trace st ++ evs
      /\ forallb is_client_event evs = true.
Proof.
  induction remaining as [|remaining IH]; intros attempt st.
  - exists []. simpl. now rewrite app_nil_r.
  - rewrite fetch_loop_step.
    destruct (fetch_attempt_frame o r st) as (_ & _ & _ & _ & _ & cevs & Ht & Hc).
    apply console_is_client in Hc.
    destruct (fetch_attempt o r st) as [[e|runs] st1]; simpl in Ht.
    + destruct (fetch_recover_run o r retries attempt e st1) as [line ->].
      destruct (Nat.eqb attempt retries); [|destruct (isNetworkError e)].
      * exists (Fetch (GetRuns o r) :: cevs ++ [Console Error line]).
        simpl. rewrite Ht, <- app_assoc, forallb_app, Hc. auto.
      * destruct (IH (S attempt)
                    (log_event (Sleep (backoff_delay attempt))
                       (log_event (Console Warn line) st1)))
          as (evs & Ht' & Hevs).
        exists (Fetch (GetRuns o r) :: cevs
                ++ [Console Warn line; Sleep (backoff_delay attempt)] ++ evs).
        rewrite Ht'. simpl. rewrite Ht, <- !app_assoc. simpl.
        split; [reflexivity|]. now rewrite forallb_app, Hc.
      * exists (Fetch (GetRuns o r) :: cevs ++ [Console Error line]).
        simpl. rewrite Ht, <- app_assoc, forallb_app, Hc. auto.
    + exists (Fetch (GetRuns o r) :: cevs). simpl. auto.
Qed.

Lemma total_backoff_three n :
  (n <= 3)%nat -> total (map backoff_delay (seq 1 (n - 1))) <= 3000.
Proof.
  intros Hn. destruct n as [|[|[|[|n]]]]; [vm_compute; discriminate.. | lia].
Qed.

Lemma total_app l k : total (l ++ k) = total l + total k.
Proof. induction l as [|x l IH]; simpl; [reflexivity|]. rewrite IH. lia. Qed.

(** All that the loop body can do for one source. *)
Lemma check_source_bounded source st :
  exists st' evs,
    check_source source st = (inr tt, st')
    /\ sources st' = sources st
    /\ trace st' = trace st ++ evs
    /\ (length (notifications evs) <= 1)%nat
    /\ (length (popups evs) <= length (notifications evs))%nat
    /\ (length (attempts evs) <= 3)%nat
    /\ total (sleeps evs) <= 3000
    /\ writes evs = [].
Proof.
  destruct (extractRepoInfo (Source.url source)) as [repoInfo|] eqn:Hinfo.
  - rewrite (check_source_step _ _ _ Hinfo).
    destruct (fetch_loop_returns (owner repoInfo) (repo repoInfo) 3 3 1 st)
      as [runs Hruns].
    pose proof (fetch_loop_silent (owner repoInfo) (repo repoInfo) 3 3 1 st)
      as (Hs & _).
    destruct (fetch_loop_events (owner repoInfo) (repo repoInfo) 3 3 1 st)
      as (evs & Ht & Hevs).
    destruct (fetch_loop_shape (owner repoInfo) (repo repoInfo) 3 3 1 st)
      as (n & evs' & Hn & _ & Ht' & Hat & Hsl); [lia|].
    assert (evs' = evs) by (rewrite Ht in Ht'; now apply app_inv_head in Ht').
    subst evs'.
    fold (fetchWorkflowRuns (owner repoInfo) (repo repoInfo) 3) in Hruns, Hs, Ht.
    destruct (fetchWorkflowRuns (owner repoInfo) (repo repoInfo) 3 st) as [res st1].
    simpl in Hruns, Hs, Ht. subst res.
    apply client_events_quiet in Hevs as (Hno & Hpo & Hwr).
    assert (Hlen : (length (attempts evs) <= 3)%nat)
      by (rewrite Hat, repeat_length; exact Hn).
    assert (Htot : total (sleeps evs) <= 3000)
      by (rewrite Hsl; now apply total_backoff_three).
    destruct runs as [|latestRun runs].
    + exists st1, evs. rewrite Hno, Hpo. simpl. repeat split; auto.
    + destruct (track_outcome (sourceKey_of repoInfo) latestRun st1)
        as (st' & -> & Hs' & _ & tevs & Ht2 & Hn2 & Hp2 & Hat2 & Hsl2 & Hwr2).
      exists st', (evs ++ tevs).
      rewrite notifications_app, popups_app, attempts_app, sleeps_app, writes_app.
      rewrite Hno, Hpo, Hwr, Hat2, Hsl2, Hwr2, !app_nil_r. simpl.
      repeat split; try assumption; try congruence.
      rewrite Ht2, Ht. now rewrite app_assoc.
  - unfold check_source. rewrite Hinfo. exists st, [].
    simpl. rewrite app_nil_r. repeat split; lia.
Qed.

Lemma for_each_bounded l :
  forall st,
    exists st' evs,
      for_each l check_source st = (inr tt, st')
      /\ sources st' = sources st
      /\ trace st' = trace st ++ evs
      /\ (length (notifications evs) <= length l)%nat
      /\ (length (popups evs) <= length (notifications evs))%nat
      /\ (length (attempts evs) <= 3 * length l)%nat
      /\ total (sleeps evs) <= 3000 * Z.of_nat (length l)
      /\ writes evs = [].
Proof.
  induction l as [|source l IH]; intros st.
  - exists st, []. simpl. rewrite app_nil_r. repeat split; lia.
  - cbn [for_each]. unfold bind.
    destruct (check_source_bounded source st)
      as (st1 & evs1 & -> & Hs1 & Ht1 & Hn1 & Hp1 & Hat1 & Hsl1 & Hwr1).
    destruct (IH st1) as (st' & evs & -> & Hs & Ht & Hn & Hp & Hat & Hsl & Hwr).
    exists st', (evs1 ++ evs).
    rewrite notifications_app, popups_app, attempts_app, sleeps_app, writes_app.
    rewrite !length_app, total_app, Hwr1, Hwr. cbn [length].
    repeat split; try lia; try congruence.
    rewrite Ht, Ht1. now rewrite app_assoc.
Qed.

(** The probe: one request, and [true] for an answer below 500. *)
Lemma isNetworkAvailable_value st :
  isNetworkAvailable st
  = (inr match github_head (world st) (requests st) with
         | Rejected _ => false
         | Resolved response => status response <? 500
         end,
     count_request (log_event (Fetch HeadGitHub) st)).
Proof.
  unfold isNetworkAvailable, try_catch. unfold bind at 1. rewrite fetch_run.
  now destruct (github_head (world st) (requests st)).
Qed.

(** X11.  When the reachability probe is rejected or answered with a
    status of 500 or more, the pass ends after that one request: it logs
    one line, asks for no runs and no image, and leaves the sources and
    the state map as they were. *)
Theorem offline_pass st :
  match github_head (world st) (requests st) with
  | Rejected _ => True
  | Resolved response => 500 <= status response
  end ->
  let st' := snd (checkWorkflows st) in
  fst (checkWorkflows st) = inr tt
  /\ events_since st st'
     = [Fetch HeadGitHub;
        Console Log ["Network unavailable, skipping workflow check"]]
  /\ sources st' = sources st /\ workflowStates st' = workflowStates st.
Proof.
  intros Hdown.
  assert (Hrun : checkWorkflows st
                 = (inr tt,
                    log_event (Console Log ["Network unavailable, skipping workflow check"])
                      (count_request (log_event (Fetch HeadGitHub) st)))).
  { unfold checkWorkflows. unfold bind at 1.
    rewrite (isNetworkAvailable_value st).
    destruct (github_head (world st) (requests st)) as [e|response];
      [reflexivity|].
    apply Z.ltb_ge in Hdown. now rewrite Hdown. }
  rewrite Hrun. simpl. repeat split.
  apply events_since_app. simpl. now rewrite <- app_assoc.
Qed.

Lemma offline_pass_witness :
  let w := {| github_runs := fun _ _ _ => http 200 None;
              github_head := fun _ => http 503 tt;
              giphy_random := fun _ _ _ => Rejected fetch_failed;
              write_file := fun _ => None;
              date_now := "2024-01-01T00:00:00.000Z" |} in
  let st := set_sources [{| Source.url := "https://github.com/a/b";
                            Source.added := "2024-01-01T00:00:00.000Z" |}]
              (started w) in
  attempts (events_since st (snd (checkWorkflows st))) = [].
Proof.
  intros w st.
  destruct (offline_pass st) as (_ & Hevs & _).
  - simpl. lia.
  - rewrite Hevs. reflexivity.
Defined.





(* ===================================================================== *)
(** ** The handlers of the source store *)
(* ===================================================================== *)

(** Saving, by what the write does. *)
Lemma saveSources_exact st :
  saveSources st
  = (inr tt,
     log_event
       match write_file (world st) (sources st) with
       | Some err => Console Error ["Error saving sources:"; JsError.message err]
       | None => Console Log ["Sources saved"]
       end
       (log_event (WriteSources (sources st)) st)).
Proof.
  unfold saveSources. run_step.
  now destruct (write_file (world st) (sources st)).
Qed.

(** X14.  An accepted add hands the new list to the file system exactly
    once.  When that write throws, the error is only logged: the handler
    still returns [true] and the source stays in the list in memory. *)
Theorem add_source_writes_once url st :
  extractRepoInfo url <> None -> ~ In url (map Source.url (sources st)) ->
  let stored := sources st ++ [{| Source.url := url;
                                  Source.added := date_now (world st) |}] in
  let st' := snd (add_source url st) in
  fst (add_source url st) = inr true
  /\ sources st' = stored
  /\ events_since st st'
     = [WriteSources stored;
        match write_file (world st) stored with
        | Some err => Console Error ["Error saving sources:"; JsError.message err]
        | None => Console Log ["Sources saved"]
        end].
Proof.
  intros Hvalid Hfresh. cbv zeta.
  assert (Hrun : add_source url st
                 = (inr true,
                    snd (saveSources
                           (set_sources
                              (sources st ++ [{| Source.url := url;
                                                 Source.added := date_now (world st) |}])
                              st)))).
  { unfold add_source. destruct (extractRepoInfo url); [|contradiction].
    unfold bind at 1, gets.
    destruct (existsb _ (sources st)) eqn:Hdup;
      [apply existsb_url_In in Hdup; contradiction|].
    unfold bind at 1, gets. unfold bind at 1, modify. unfold bind at 1.
    now rewrite saveSources_exact. }
  rewrite Hrun, saveSources_exact. simpl. repeat split.
  apply events_since_app. simpl. now rewrite <- app_assoc.
Qed.

Lemma add_source_writes_once_witness :
  let w := {| github_runs := fun _ _ _ => http 200 None;
              github_head := fun _ => http 200 tt;
              giphy_random := fun _ _ _ => Rejected fetch_failed;
              write_file := fun _ => Some (JsError.Error "EACCES: permission denied");
              date_now := "2024-01-01T00:00:00.000Z" |} in
  fst (add_source "https://github.com/a/b" (started w)) = inr true
  /\ map Source.url (sources (snd (add_source "https://github.com/a/b" (started w))))
     = ["https://github.com/a/b"].
Proof.
  intros w.
  destruct (add_source_writes_once "https://github.com/a/b" (started w))
    as (Hok & Hstored & _).
  - discriminate.
  - intros [].
  - split; [exact Hok|]. rewrite Hstored. reflexivity.
Defined.

Lemma remove_source_skips index st :
  ~ (0 <= index < Z.of_nat (length (sources st))) ->
  remove_source index st = (inr true, st).
Proof.
  intros Hout. unfold remove_source. unfold bind at 1, gets.
  destruct ((0 <=? index) && (index <? Z.of_nat (length (sources st)))) eqn:Hin;
    [|reflexivity].
  apply andb_prop in Hin as [H1%Z.leb_le H2%Z.ltb_lt]. lia.
Qed.

(** X15.  ['remove-source'] with an index that is negative or not below
    the length of the list returns [true] and does nothing: no source is
    removed, no record dropped, no file written. *)
Theorem remove_source_out_of_range index st :
  ~ (0 <= index < Z.of_nat (length (sources st))) ->
  remove_source index st = (inr true, st).
Proof. apply remove_source_skips. Qed.

Lemma remove_source_out_of_range_witness :
  let st := set_sources [{| Source.url := "https://github.com/a/b";
                            Source.added := "2024-01-01T00:00:00.000Z" |}]
              (started (scripted (fun _ => http 200 None) (Rejected fetch_failed))) in
  remove_source 1 st = (inr true, st) /\ remove_source (-1) st = (inr true, st).
Proof.
  intros st.
  split; apply (remove_source_out_of_range _ st); simpl; lia.
Defined.

(** Removing at a position that exists, in full. *)
Lemma remove_source_exact (n : nat) removed st :
  sources st !! n = Some removed ->
  remove_source (Z.of_nat n) st
  = (inr true,
     let saved := snd (saveSources (set_sources (delete n (sources st)) st)) in
     match extractRepoInfo (Source.url removed) with
     | Some repoInfo =>
         set_workflowStates (delete (sourceKey_of repoInfo) (workflowStates saved))
           saved
     | None => saved
     end).
Proof.
  intros Hat. unfold remove_source. unfold bind at 1, gets.
  assert (Hrange : (0 <=? Z.of_nat n) && (Z.of_nat n <? Z.of_nat (length (sources st)))
                   = true).
  { apply lookup_lt_Some in Hat. apply andb_true_intro.
    split; [apply Z.leb_le | apply Z.ltb_lt]; lia. }
  rewrite Hrange, Nat2Z.id, Hat.
  unfold bind at 1. unfold bind at 1, modify. unfold bind at 1.
  rewrite saveSources_exact.
  destruct (extractRepoInfo (Source.url removed)); reflexivity.
Qed.

(** X16.  Removing the source at an existing position returns [true] even
    when the write fails, hands the shortened list to the file system
    exactly once, and keeps every record but the one of the removed
    source's repo. *)
Theorem remove_source_keeps_others (n : nat) removed st :
  sources st !! n = Some removed ->
  let st' := snd (remove_source (Z.of_nat n) st) in
  fst (remove_source (Z.of_nat n) st) = inr true
  /\ sources st' = take n (sources st) ++ drop (S n) (sources st)
  /\ writes (events_since st st') = [sources st']
  /\ (forall key,
        (forall repoInfo, extractRepoInfo (Source.url removed) = Some repoInfo ->
                          sourceKey_of repoInfo <> key) ->
        workflowStates st' !! key = workflowStates st !! key).
Proof.
  intros Hat. rewrite (remove_source_exact n removed st Hat), saveSources_exact.
  cbv zeta. cbn [fst snd].
  assert (Hdelete : delete n (sources st) = take n (sources st) ++ drop (S n) (sources st))
    by (clear; revert n; induction (sources st) as [|x l IH]; intros [|n]; simpl;
        try reflexivity; now rewrite <- IH).
  destruct (extractRepoInfo (Source.url removed)) as [repoInfo|]; simpl.
  - repeat split; try assumption.
    + erewrite events_since_app by (simpl; rewrite <- app_assoc; reflexivity).
      now destruct (write_file _ _).
    + intros key Hkey. apply lookup_delete_ne. now apply Hkey.
  - repeat split; try assumption.
    erewrite events_since_app by (simpl; rewrite <- app_assoc; reflexivity).
    now destruct (write_file _ _).
Qed.

Lemma remove_source_keeps_others_witness :
  let record := {| WorkflowState.latestRunId := 5; WorkflowState.status := "completed";
                   WorkflowState.conclusion := Some "success";
                   WorkflowState.notifiedStart := false |} in
  let ab := {| Source.url := "https://github.com/a/b";
               Source.added := "2024-01-01T00:00:00.000Z" |} in
  let cd := {| Source.url := "https://github.com/c/d";
               Source.added := "2024-01-02T00:00:00.000Z" |} in
  let st := set_workflowStates {["a/b" := record; "c/d" := record]}
              (set_sources [ab; cd]
                 (started (scripted (fun _ => http 200 None) (Rejected fetch_failed)))) in
  sources (snd (remove_source 0 st)) = [cd]
  /\ workflowStates (snd (remove_source 0 st)) !! "c/d" = Some record.
Proof.
  intros record ab cd st.
  destruct (remove_source_keeps_others 0 ab st eq_refl) as (_ & Hs & _ & Hkeep).
  split; [exact Hs|].
  transitivity (workflowStates st !! "c/d"); [|reflexivity].
  apply (Hkeep "c/d"). intros repoInfo [= <-]. discriminate.
Defined.

(** X17.  Adding a source and then removing the last position gives back
    the source list as it was; the record of the added repo, if one was
    kept for another source, is dropped on the way. *)
Theorem add_then_remove url repoInfo st :
  extractRepoInfo url = Some repoInfo ->
  ~ In url (map Source.url (sources st)) ->
  let added := snd (add_source url st) in
  let removed := snd (remove_source (Z.of_nat (length (sources st))) added) in
  sources removed = sources st
  /\ workflowStates removed = delete (sourceKey_of repoInfo) (workflowStates st).
Proof.
  intros Hinfo Hfresh. cbv zeta.
  destruct (add_source_run url st) as (level & line & Hadd).
  rewrite Hinfo in Hadd.
  destruct (existsb _ (sources st)) eqn:Hdup;
    [apply existsb_url_In in Hdup; contradiction|].
  rewrite Hadd. cbv zeta. cbn [snd].
  erewrite remove_source_exact
    by (simpl; rewrite lookup_app_r by lia; now rewrite Nat.sub_diag).
  rewrite saveSources_exact. cbn [snd Source.url]. rewrite Hinfo. simpl.
  split; [|reflexivity].
  clear. induction (sources st) as [|x l IH]; simpl; [reflexivity|].
  now rewrite IH.
Qed.

Lemma add_then_remove_witness :
  let st := set_sources [{| Source.url := "https://github.com/a/b";
                            Source.added := "2024-01-01T00:00:00.000Z" |}]
              (started (scripted (fun _ => http 200 None) (Rejected fetch_failed))) in
  sources (snd (remove_source 1 (snd (add_source "github.com/c/d" st))))
  = sources st.
Proof.
  intros st.
  apply (add_then_remove "github.com/c/d" {| owner := "c"; repo := "d" |} st).
  - reflexivity.
  - simpl. intuition discriminate.
Defined.

Lemma In_delete_other {A} (b : A) (l : list A) :
  forall i j, i <> j -> l !! j = Some b -> In b (delete i l).
Proof.
  induction l as [|a l IH]; intros i j Hne Hat; [discriminate|].
  destruct i as [|i], j as [|j]; simpl in *.
  - contradiction.
  - eapply list_elem_of_In, list_elem_of_lookup_2, Hat.
  - injection Hat as ->. now left.
  - right. apply (IH i j); [lia | assumption].
Qed.

(** X18.  The record belongs to the repo, not to the source: when two
    stored sources resolve to the same repo, removing one of them drops
    the record of the repo although the other source is still stored. *)
Theorem remove_drops_shared_record (i j : nat) a b repoInfo st :
  i <> j ->
  sources st !! i = Some a -> sources st !! j = Some b ->
  extractRepoInfo (Source.url a) = Some repoInfo ->
  extractRepoInfo (Source.url b) = Some repoInfo ->
  let st' := snd (remove_source (Z.of_nat i) st) in
  In b (sources st')
  /\ workflowStates st' !! sourceKey_of repoInfo = None.
Proof.
  intros Hne Ha Hb Hinfoa Hinfob.
  rewrite (remove_source_exact i a st Ha), saveSources_exact, Hinfoa.
  cbv zeta. simpl. split.
  - now apply (In_delete_other b (sources st) i j).
  - apply lookup_delete_eq.
Qed.

Lemma remove_drops_shared_record_witness :
  let record := {| WorkflowState.latestRunId := 5; WorkflowState.status := "in_progress";
                   WorkflowState.conclusion := None;
                   WorkflowState.notifiedStart := false |} in
  let plain := {| Source.url := "https://github.com/a/b";
                  Source.added := "2024-01-01T00:00:00.000Z" |} in
  let deep := {| Source.url := "https://github.com/a/b/actions";
                 Source.added := "2024-01-02T00:00:00.000Z" |} in
  let st := set_workflowStates {["a/b" := record]}
              (set_sources [plain; deep]
                 (started (scripted (fun _ => http 200 None) (Rejected fetch_failed)))) in
  In deep (sources (snd (remove_source 0 st)))
  /\ workflowStates (snd (remove_source 0 st)) !! "a/b" = None.
Proof.
  intros record plain deep st.
  apply (remove_drops_shared_record 0 1 plain deep {| owner := "a"; repo := "b" |} st);
    [discriminate | reflexivity..].
Defined.

(* ===================================================================== *)
(** ** A session *)
(* ===================================================================== *)

Lemma NoDup_delete_map {A B} (f : A -> B) (l : list A) :
  forall n, List.NoDup (map f l) -> List.NoDup (map f (delete n l)).
Proof.
  induction l as [|x l IH]; intros n Hl; [destruct n; exact Hl|].
  simpl in Hl. apply List.NoDup_cons_iff in Hl as [Hx Hl].
  destruct n as [|n]; simpl; [exact Hl|].
  apply List.NoDup_cons; [|now apply IH].
  intros Hin. apply Hx. apply in_map_iff in Hin as (y & Hy & Hin).
  apply in_map_iff. exists y. split; [assumption|].
  clear -Hin. revert n Hin. induction l as [|z l IH]; intros [|n] Hin;
    simpl in *; auto.
  destruct Hin as [->|Hin]; [now left | right; eauto].
Qed.

Lemma Forall_delete {A} (P : A -> Prop) (l : list A) :
  forall n, Forall P l -> Forall P (delete n l).
Proof.
  induction l as [|x l IH]; intros n Hl; [destruct n; exact Hl|].
  apply Forall_cons in Hl as [Hx Hl].
  destruct n as [|n]; simpl; [exact Hl|].
  apply Forall_cons. split; [assumption | now apply IH].
Qed.

Lemma add_source_keeps_valid url st :
  store_valid st -> store_valid (snd (add_source url st)).
Proof.
  intros [Hdistinct Hresolve].
  destruct (add_source_run url st) as (level & line & ->).
  destruct (extractRepoInfo url) as [repoInfo|] eqn:Hinfo; [|now split].
  destruct (existsb _ (sources st)) eqn:Hdup; [now split|].
  assert (Hfresh : ~ In url (map Source.url (sources st)))
    by (rewrite <- existsb_url_In, Hdup; discriminate).
  split; simpl.
  - rewrite map_app. simpl.
    apply List.NoDup_rev in Hdistinct.
    rewrite <- (rev_involutive (map Source.url (sources st) ++ [url])).
    apply List.NoDup_rev. rewrite rev_app_distr. simpl.
    apply List.NoDup_cons; [|assumption].
    now rewrite <- in_rev.
  - apply Forall_app. split; [assumption|].
    apply Forall_cons. split; [simpl; congruence | constructor].
Qed.

Lemma remove_source_keeps_valid index st :
  store_valid st -> store_valid (snd (remove_source index st)).
Proof.
  intros [Hdistinct Hresolve].
  destruct (decide (0 <= index < Z.of_nat (length (sources st)))) as [Hrange|Hout].
  - destruct (lookup_lt_is_Some_2 (sources st) (Z.to_nat index)) as [removed Hat];
      [lia|].
    destruct (remove_source_run (Z.to_nat index) removed st Hat)
      as (st' & Hrun & Hs & _).
    rewrite Z2Nat.id in Hrun by lia. rewrite Hrun. simpl.
    split; rewrite Hs; [now apply NoDup_delete_map | now apply Forall_delete].
  - rewrite remove_source_skips by assumption. now split.
Qed.

(** X19.  Over any sequence of passes and handler calls, each run to its
    end before the next, that starts from a store whose urls all resolve
    and are pairwise distinct and from records that all belong to stored
    sources, all of this stays true: only urls that resolve are stored,
    none twice, and no record outlives the sources of its repo. *)
Theorem session_keeps_store_sound actions :
  forall st,
    store_valid st -> tracked_have_sources st ->
    store_valid (session actions st) /\ tracked_have_sources (session actions st).
Proof.
  induction actions as [|a actions IH]; intros st Hvalid Htracked; [now split|].
  cbn [session fold_left]. apply IH.
  - destruct a; simpl.
    + destruct (checkWorkflows_run st) as [available ->]. cbv zeta.
      destruct available; [|exact Hvalid].
      destruct (for_each_bounded (sources st)
                  (count_request (log_event (Fetch HeadGitHub) st)))
        as (st' & evs & -> & Hs & _).
      unfold store_valid. simpl. now rewrite Hs.
    + exact Hvalid.
    + now apply add_source_keeps_valid.
    + now apply remove_source_keeps_valid.
  - destruct (tracked_repos_have_sources st Htracked) as ((_ & Htick) & Hadd & Hremove).
    destruct a; simpl; auto.
Qed.

Lemma session_keeps_store_sound_witness :
  let st := started (scripted (fun _ => http 200 None) (Rejected fetch_failed)) in
  store_valid (session [AddSource "https://github.com/a/b"; Tick;
                        AddSource "https://github.com/a/b"; RemoveSource 0] st).
Proof.
  intros st.
  apply (session_keeps_store_sound
           [AddSource "https://github.com/a/b"; Tick;
            AddSource "https://github.com/a/b"; RemoveSource 0] st).
  - split; constructor.
  - intros key [record Hrecord]. discriminate Hrecord.
Defined.

(* ===================================================================== *)
(** ** The fallback icon and start-up *)
(* ===================================================================== *)

(** Filling from byte [i] on, with enough fuel to reach the end. *)
Lemma fill_pixels_spec fuel :
  forall q buffer,
    (length buffer <= 4 * q + 4 * fuel)%nat ->
    (forall j, (j < 4 * q)%nat -> (j < length buffer)%nat ->
               buffer !! j = Some (blue_byte j)) ->
    length (fill_pixels fuel (4 * q) buffer) = length buffer
    /\ forall j, (j < length buffer)%nat ->
                 fill_pixels fuel (4 * q) buffer !! j = Some (blue_byte j).
Proof.
  induction fuel as [|fuel IH]; intros q buffer Hfuel Hdone.
  - split; [reflexivity|]. intros j Hj. apply Hdone; lia.
  - cbn [fill_pixels].
    destruct (Nat.ltb_spec (4 * q) (length buffer)) as [Hin|Hout].
    + replace (4 * q + 4)%nat with (4 * S q)%nat by lia.
      set (buffer' := <[(4 * q + 3)%nat := 255]>
                        (<[(4 * q + 2)%nat := 255]>
                           (<[(4 * q + 1)%nat := 122]>
                              (<[(4 * q)%nat := 0]> buffer)))).
      assert (Hlen : length buffer' = length buffer)
        by (unfold buffer'; now rewrite !length_insert).
      destruct (IH (S q) buffer') as [Hlen' Hall].
      * rewrite Hlen. lia.
      * intros j Hj Hj'. rewrite Hlen in Hj'. unfold buffer'.
        assert (Hbyte : forall k, (k < 4)%nat ->
                  blue_byte (4 * q + k) = blue_byte k).
        { intros k Hk. unfold blue_byte.
          replace (4 * q + k)%nat with (k + q * 4)%nat by lia.
          now rewrite Nat.Div0.mod_add. }
        destruct (decide (j = 4 * q + 3)%nat) as [->|H3].
        { rewrite list_lookup_insert_eq by (rewrite !length_insert; lia).
          now rewrite (Hbyte 3%nat) by lia. }
        rewrite list_lookup_insert_ne by lia.
        destruct (decide (j = 4 * q + 2)%nat) as [->|H2].
        { rewrite list_lookup_insert_eq by (rewrite !length_insert; lia).
          now rewrite (Hbyte 2%nat) by lia. }
        rewrite list_lookup_insert_ne by lia.
        destruct (decide (j = 4 * q + 1)%nat) as [->|H1].
        { rewrite list_lookup_insert_eq by (rewrite !length_insert; lia).
          now rewrite (Hbyte 1%nat) by lia. }
        rewrite list_lookup_insert_ne by lia.
        destruct (decide (j = 4 * q)%nat) as [->|H0].
        { rewrite list_lookup_insert_eq by lia.
          replace (4 * q)%nat with (4 * q + 0)%nat by lia.
          now rewrite (Hbyte 0%nat) by lia. }
        rewrite list_lookup_insert_ne by lia.
        apply Hdone; lia.
      * split; [congruence|]. intros j Hj. apply Hall. now rewrite Hlen.
    + split; [reflexivity|]. intros j Hj. apply Hdone; lia.
Qed.

(** X21.  The fallback tray icon is opaque blue all over: the loop ends
    within as many rounds as the buffer has bytes, keeps the length of
    the buffer, and leaves every pixel at the bytes 0, 122, 255, 255, for
    any width and height. *)
Theorem fallback_pixels_blue width height :
  length (fallback_pixels width height) = (width * height * 4)%nat
  /\ (forall j, (j < width * height * 4)%nat ->
                fallback_pixels width height !! j = Some (blue_byte j))
  /\ (forall fuel, (width * height * 4 <= fuel)%nat ->
                   fill_pixels fuel 0 (replicate (width * height * 4) 0)
                   = fallback_pixels width height).
Proof.
  assert (Hspec : forall fuel, (width * height * 4 <= fuel)%nat ->
            length (fill_pixels fuel 0 (replicate (width * height * 4) 0))
            = (width * height * 4)%nat
            /\ forall j, (j < width * height * 4)%nat ->
                         fill_pixels fuel 0 (replicate (width * height * 4) 0) !! j
                         = Some (blue_byte j)).
  { intros fuel Hfuel.
    destruct (fill_pixels_spec fuel 0 (replicate (width * height * 4) 0))
      as [Hlen Hall].
    - rewrite length_replicate. lia.
    - intros j Hj. lia.
    - rewrite length_replicate in *. simpl in Hlen, Hall. now split. }
  unfold fallback_pixels. cbv zeta. rewrite length_replicate.
  destruct (Hspec (width * height * 4)%nat (le_n _)) as [Hlen Hall].
  split; [exact Hlen|]. split; [exact Hall|].
  intros fuel Hfuel. destruct (Hspec fuel Hfuel) as [Hlen' Hall'].
  apply list_eq. intros j.
  destruct (Nat.lt_ge_cases j (width * height * 4)) as [Hj|Hj].
  - now rewrite Hall, Hall'.
  - rewrite !lookup_ge_None_2; [reflexivity | lia | lia].
Qed.

Example fallback_icon_22 :
  length (fallback_pixels 22 22) = 1936%nat
  /\ take 8 (fallback_pixels 22 22) = [0; 122; 255; 255; 0; 122; 255; 255].
Proof. split; vm_compute; reflexivity. Qed.

(** X22.  [loadSources] never throws.  A missing file leaves the list as
    it is; a file that cannot be read or parsed empties the list, also
    when sources were in memory before; a parsed file replaces the list.
    The state map is not touched and nothing is written. *)
Theorem loadSources_outcomes inspect file st :
  let st' := snd (loadSources inspect file st) in
  fst (loadSources inspect file st) = inr tt
  /\ sources st'
     = match file with
       | NoFile => sources st
       | FileText (inr data) => data
       | ReadError _ | FileText (inl _) => []
       end
  /\ workflowStates st' = workflowStates st
  /\ writes (events_since st st') = []
  /\ notifications (events_since st st') = [].
Proof.
  unfold loadSources. destruct file as [|e|[e|data]]; run_step.
  - rewrite events_since_refl. auto.
  - repeat split; erewrite events_since_app by reflexivity; reflexivity.
  - repeat split; erewrite events_since_app by reflexivity; reflexivity.
  - repeat split; erewrite events_since_app by reflexivity; reflexivity.
Qed.

(* ===================================================================== *)
(** ** The renderer's check and the order of the polls *)
(* ===================================================================== *)

Lemma includes_inside needle pre rest :
  JsString.includes needle (pre +:+ needle +:+ rest) = true.
Proof.
  induction pre as [|c pre IH].
  - cbn [String.append]. destruct (needle +:+ rest) eqn:E;
      cbn [JsString.includes]; rewrite <- E, strip_prefix_append; reflexivity.
  - cbn [String.append JsString.includes].
    destruct (JsString.strip_prefix needle (String c (pre +:+ needle +:+ rest)));
      [reflexivity | exact IH].
Qed.

(** X23.  The renderer's check lets through every identifier the
    ['add-source'] handler accepts, but not only those: [github.com] alone
    passes the check and is then rejected by the handler. *)
Theorem renderer_check_is_weaker :
  (forall url, extractRepoInfo url <> None -> renderer_accepts url = true)
  /\ renderer_accepts "github.com" = true
  /\ extractRepoInfo "github.com" = None.
Proof.
  split; [|split; reflexivity].
  intros url Hvalid. destruct (extractRepoInfo url) as [info|] eqn:Hinfo;
    [|contradiction].
  apply extractRepoInfo_inv in Hinfo as (_ & _ & pre & post & -> & _).
  unfold renderer_accepts. apply andb_true_intro. split.
  - now destruct pre.
  - change ("github.com/" +:+ owner info +:+ "/" +:+ repo info +:+ post)
      with ("github.com" +:+ "/" +:+ owner info +:+ "/" +:+ repo info +:+ post).
    apply includes_inside.
Qed.

Lemma renderer_check_is_weaker_witness :
  renderer_accepts "https://github.com/tnylea/failwhale" = true.
Proof.
  apply (proj1 renderer_check_is_weaker). discriminate.
Defined.





Lemma fallback_pixels_blue_witness :
  fallback_pixels 22 22 !! 5%nat = Some 122
  /\ fallback_pixels 22 22 !! 1935%nat = Some 255.
Proof.
  split.
  - apply (proj1 (proj2 (fallback_pixels_blue 22 22)) 5%nat). simpl. lia.
  - apply (proj1 (proj2 (fallback_pixels_blue 22 22)) 1935%nat). simpl. lia.
Defined.
